(** * AdjustCallingConventions: a shallow embedding of the Torch
      calling-convention adjustment pass

    Source: lib/Dialect/Torch/Transforms/AdjustCallingConventions.cpp.

    The three conversion patterns (function signature, call site, return)
    and the driver's legality predicates are embedded as executable
    functions.  Operations created through the rewriter are threaded
    through a small state-and-outcome monad that hands out fresh
    operation identities, the way [rewriter.create] hands out fresh
    [Operation *] pointers. *)

From stdpp Require Import base gmap list strings.
From Stdlib Require Import ZArith Lia.

Open Scope string_scope.
Open Scope list_scope.
Set Warnings "-register-all".

(** ** Types, attributes, values and operations *)

(** The part of the Torch type system the pass inspects.  The payload of
    a tensor type (sizes and dtype) is opaque to the pass. *)
Inductive Ty : Type :=
  | NonValueTensorType (info : nat)
  | ValueTensorType (info : nat)
  | NoneType
  | TupleType (containedTypes : list Ty)
  | OtherType (tag : nat).

(** [!torch.int], the result type of [ConstantIntOp]. *)
Definition torchIntType : Ty := OtherType 0.

Definition isaNonValueTensorType (t : Ty) : bool :=
  match t with NonValueTensorType _ => true | _ => false end.

Definition isaValueTensorType (t : Ty) : bool :=
  match t with ValueTensorType _ => true | _ => false end.

Definition isaNoneType (t : Ty) : bool :=
  match t with NoneType => true | _ => false end.

Definition isaTupleType (t : Ty) : bool :=
  match t with TupleType _ => true | _ => false end.

(** [dyn_cast<Torch::TupleType>(t)] followed by [getContainedTypes()]. *)
Definition dynCastTupleType (t : Ty) : option (list Ty) :=
  match t with TupleType tys => Some tys | _ => None end.

(** [Type bound = attr ? attr.getValue() : Type()] yields a possibly null
    type, modelled as [option Ty].  [isa<ValueTensorType>] of the null type
    reads the type id through the null implementation pointer: it has no
    answer, which is [None] here and a crash in the pattern. *)
Definition isaValueTensorTypeOrNull (bound : option Ty) : option bool :=
  match bound with Some t => Some (isaValueTensorType t) | None => None end.

Inductive Attribute : Type :=
  | TypeAttr (value : Ty)
  | IntegerAttr (value : Z)
  | UnitAttr.

Inductive OperationName : Type :=
  | CallOp (callee : string)
  | ReturnOp
  | CallIndirectOp
  | ConstantNoneOp
  | ConstantIntOp (value : Z)
  | PrimTupleConstructOp
  | PrimTupleIndexOp
  | UnrealizedConversionCastOp
  | CopyTensorToTypeOp
  | OtherOp (name : string).

(** An SSA value is a block argument or the [resultNumber]-th result of
    its defining operation; the defining operation is carried inside the
    value, so [getDefiningOp] and [getOperand] need no store. *)
Inductive Value : Type :=
  | BlockArgument (argNumber : nat) (type : Ty)
  | OpResult (id : nat) (name : OperationName) (operands : list Value)
             (resultTypes : list Ty) (resultNumber : nat).

Record Operation : Type := mkOperation {
  opId : nat;
  opName : OperationName;
  opOperands : list Value;
  opResultTypes : list Ty
}.

Definition getResultUnchecked (op : Operation) (i : nat) : Value :=
  OpResult (opId op) (opName op) (opOperands op) (opResultTypes op) i.

(** [op.getResult(i)]: out of range is an assertion failure in the source. *)
Definition getResult (op : Operation) (i : nat) : option Value :=
  if decide (i < length (opResultTypes op))
  then Some (getResultUnchecked op i) else None.

(** [op.getResults()]. *)
Definition getResults (op : Operation) : list Value :=
  map (getResultUnchecked op) (seq 0 (length (opResultTypes op))).

(** [op->getOperand(i)]. *)
Definition getOperand (op : Operation) (i : nat) : option Value :=
  opOperands op !! i.

Definition getDefiningOp (v : Value) : option Operation :=
  match v with
  | BlockArgument _ _ => None
  | OpResult id name operands resultTypes _ =>
      Some (mkOperation id name operands resultTypes)
  end.

(** [v.getType()].  The fallback is never reached for values obtained
    through [getResult] or [getResults]. *)
Definition getType (v : Value) : Ty :=
  match v with
  | BlockArgument _ ty => ty
  | OpResult _ _ _ resultTypes i => default (OtherType 0) (resultTypes !! i)
  end.

Definition isaUnrealizedConversionCastOp (op : Operation) : bool :=
  match opName op with UnrealizedConversionCastOp => true | _ => false end.

Definition isCallOp (op : Operation) : bool :=
  match opName op with CallOp _ => true | _ => false end.

Definition isReturnOp (op : Operation) : bool :=
  match opName op with ReturnOp => true | _ => false end.

Definition isCallIndirectOp (op : Operation) : bool :=
  match opName op with CallIndirectOp => true | _ => false end.

(** [llvm::enumerate]. *)
Fixpoint enumerateFrom {A : Type} (start : nat) (l : list A) : list (nat * A) :=
  match l with
  | [] => []
  | x :: rest => (start, x) :: enumerateFrom (S start) rest
  end.

Definition enumerate {A : Type} (l : list A) : list (nat * A) :=
  enumerateFrom 0 l.

(** ** The rewriter *)

(** What a pattern or the driver can end in: success, a [LogicalResult]
    failure (with the diagnostic passed to [notifyMatchFailure], or none
    for a bare [failure()]), or a crash: a failed assertion on an
    out-of-range access, or [isa<>] applied to a null type. *)
Inductive Outcome (A : Type) : Type :=
  | Ok (a : A)
  | Failure (diag : option string)
  | AssertionFailure.

Arguments Ok {A} a.
Arguments Failure {A} diag.
Arguments AssertionFailure {A}.

(** The state of a [ConversionPatternRewriter]: the next fresh operation
    identity, the operations created so far in creation order, and the
    replacements recorded by [replaceOp], keyed by the replaced
    operation's identity. *)
Record RewriterState : Type := mkRewriterState {
  nextId : nat;
  createdOps : list Operation;
  replacements : gmap nat (list Value)
}.

Module Rewrite.

Definition M (A : Type) : Type := RewriterState -> Outcome (A * RewriterState).

Definition ret {A : Type} (a : A) : M A := fun st => Ok (a, st).

Definition bind {A B : Type} (m : M A) (k : A -> M B) : M B :=
  fun st =>
    match m st with
    | Ok (a, st') => k a st'
    | Failure diag => Failure diag
    | AssertionFailure => AssertionFailure
    end.

Definition notifyMatchFailure {A : Type} (diag : string) : M A :=
  fun _ => Failure (Some diag).

Definition failure {A : Type} : M A := fun _ => Failure None.

(** Lifts a checked access: [None] is the crash. *)
Definition assertSome {A : Type} (o : option A) : M A :=
  fun st => match o with Some a => Ok (a, st) | None => AssertionFailure end.

(** [rewriter.create<OpTy>(loc, ...)]. *)
Definition create (name : OperationName) (operands : list Value)
    (resultTypes : list Ty) : M Operation :=
  fun st =>
    let op := mkOperation (nextId st) name operands resultTypes in
    Ok (op, mkRewriterState (S (nextId st)) (createdOps st ++ [op])
                            (replacements st)).

(** [rewriter.replaceOp(op, newValues)]. *)
Definition replaceOp (op : Operation) (newValues : list Value) : M unit :=
  fun st =>
    Ok (tt, mkRewriterState (nextId st) (createdOps st)
                            (<[opId op := newValues]> (replacements st))).

End Rewrite.

Notation "x <- m ;; k" := (Rewrite.bind m (fun x => k))
  (at level 100, m at next level, right associativity, only parsing).

(** The implicit conversion of a single-result operation to a [Value]. *)
Definition asValue (op : Operation) : Value := getResultUnchecked op 0.

(** Modelled from the spec: [copyTensorToType] is declared with the Torch
    dialect's IR utilities, which are not part of the sources at hand.  Per
    the spec it inserts a copy/cast operation converting the operand to the
    given type; it is embedded as one created operation whose single result
    has that type. *)
Definition copyTensorToType (type : Ty) (tensor : Value) : Rewrite.M Value :=
  op <- Rewrite.create CopyTensorToTypeOp [tensor] [type] ;;
  Rewrite.ret (asValue op).

Definition unimplementedBound : string :=
  "unimplemented: preserving aliasing for non-value-semantic type bounds".

(** ** Functions and the signature pattern *)

(** [func::FuncOp].  [argAttrs] holds one attribute dictionary per
    argument; [entryBlockArgTypes] are the argument types of the entry
    block of the body; [body] lists the operations of the body in walk
    order. *)
Record FuncOp : Type := mkFuncOp {
  symName : string;
  argumentTypes : list Ty;
  resultTypes : list Ty;
  argAttrs : list (gmap string Attribute);
  entryBlockArgTypes : list Ty;
  body : list Operation
}.

Definition typeBoundIdent : string := "torch.type_bound".

Definition getNumArguments (func : FuncOp) : nat := length (argumentTypes func).
Definition getNumResults (func : FuncOp) : nat := length (resultTypes func).

(** [func.getArgAttr(i, name)]. *)
Definition getArgAttr (func : FuncOp) (i : nat) (name : string) : option Attribute :=
  match argAttrs func !! i with
  | Some dict => dict !! name
  | None => None
  end.

(** [func.getArgAttrOfType<TypeAttr>(i, name)]: null unless the attribute
    is present and is a [TypeAttr]. *)
Definition getArgAttrOfTypeTypeAttr (func : FuncOp) (i : nat) (name : string)
    : option Ty :=
  match getArgAttr func i name with
  | Some (TypeAttr value) => Some value
  | _ => None
  end.

(** [func.removeArgAttr(i, name)]. *)
Definition removeArgAttr (func : FuncOp) (i : nat) (name : string) : FuncOp :=
  mkFuncOp (symName func) (argumentTypes func) (resultTypes func)
    (match argAttrs func !! i with
     | Some dict => <[i := delete name dict]> (argAttrs func)
     | None => argAttrs func
     end)
    (entryBlockArgTypes func) (body func).

(** [func.setType(FunctionType::get(ctx, inputs, results))].  When the
    number of arguments shrinks, the function interface keeps the first
    attribute dictionaries; the pass never grows the argument list. *)
Definition setType (func : FuncOp) (inputs results : list Ty) : FuncOp :=
  mkFuncOp (symName func) inputs results
    (take (length inputs) (argAttrs func))
    (entryBlockArgTypes func) (body func).

(** [TypeConverter::SignatureConversion]: per original argument, the
    position and count of the types it was given, and the new argument
    types accumulated so far. *)
Record SignatureConversion : Type := mkSignatureConversion {
  remappedInputs : list (option (nat * nat));
  convertedTypes : list Ty
}.

Definition newSignatureConversion (numOrigInputs : nat) : SignatureConversion :=
  mkSignatureConversion (replicate numOrigInputs None) [].

(** [conversion.addInputs(origInputNo, types)]. *)
Definition addInputs (conversion : SignatureConversion) (origInputNo : nat)
    (types : list Ty) : SignatureConversion :=
  mkSignatureConversion
    (<[origInputNo := Some (length (convertedTypes conversion), length types)]>
       (remappedInputs conversion))
    (convertedTypes conversion ++ types).

(** The loop over [llvm::enumerate(func.getArgumentTypes())], lines 55-73. *)
Fixpoint convertArguments (func : FuncOp) (args : list (nat * Ty))
    (conversion : SignatureConversion) : Rewrite.M SignatureConversion :=
  match args with
  | [] => Rewrite.ret conversion
  | (index, type) :: rest =>
      if isaNonValueTensorType type then
        let typeBoundAttr := getArgAttrOfTypeTypeAttr func index typeBoundIdent in
        let bound : option Ty := typeBoundAttr in
        isaValueTensor <- Rewrite.assertSome (isaValueTensorTypeOrNull bound) ;;
        if negb isaValueTensor then
          Rewrite.notifyMatchFailure unimplementedBound
        else
          convertArguments func rest
            (addInputs conversion index
               [match typeBoundAttr with Some value => value | None => type end])
      else if isaNoneType type then
        convertArguments func rest conversion
      else
        convertArguments func rest (addInputs conversion index [type])
  end.

(** The loop over [func.getFunctionType().getResults()], lines 77-87. *)
Fixpoint convertResultTypes (types : list Ty) (newResultTypes : list Ty) : list Ty :=
  match types with
  | [] => newResultTypes
  | type :: rest =>
      if isaNoneType type then convertResultTypes rest newResultTypes
      else match dynCastTupleType type with
           | Some containedTypes =>
               convertResultTypes rest (newResultTypes ++ containedTypes)
           | None => convertResultTypes rest (newResultTypes ++ [type])
           end
  end.

(** The loop [for (i = 0, e = func.getNumArguments(); i != e; i++)
    func.removeArgAttr(i, typeBoundIdent)], lines 92-93. *)
Definition clearTypeBounds (func : FuncOp) : FuncOp :=
  foldl (fun f i => removeArgAttr f i typeBoundIdent) func
        (seq 0 (getNumArguments func)).

(** [rewriter.applySignatureConversion(&func.getBody().front(), conversion)]:
    the entry block takes the converted argument types. *)
Definition applySignatureConversion (func : FuncOp)
    (conversion : SignatureConversion) : FuncOp :=
  mkFuncOp (symName func) (argumentTypes func) (resultTypes func)
    (argAttrs func) (convertedTypes conversion) (body func).

(** [AdjustCallingConventionForFunc::matchAndRewrite].  The function is
    updated in place, so the updated function is the pattern's result. *)
Definition matchAndRewriteFunc (func : FuncOp) : Rewrite.M FuncOp :=
  conversion <- convertArguments func (enumerate (argumentTypes func))
                  (newSignatureConversion (getNumArguments func)) ;;
  let func1 := applySignatureConversion func conversion in
  let newResultTypes := convertResultTypes (resultTypes func) [] in
  let func2 := setType func1 (convertedTypes conversion) newResultTypes in
  Rewrite.ret (clearTypeBounds func2).

(** ** The type converter *)

(** The conversions registered at lines 223-232; the converter tries the
    most recently added one first: [NoneType] converts to no type at all,
    a tuple to its contained types, anything else to itself.  Every
    registered callback succeeds. *)
Definition convertType (type : Ty) : option (list Ty) :=
  if isaNoneType type then Some []
  else match dynCastTupleType type with
       | Some containedTypes => Some containedTypes
       | None => Some [type]
       end.

(** [typeConverter->convertTypes(types, results)]. *)
Fixpoint convertTypes (types : list Ty) (results : list Ty) : option (list Ty) :=
  match types with
  | [] => Some results
  | type :: rest =>
      match convertType type with
      | Some converted => convertTypes rest (results ++ converted)
      | None => None
      end
  end.

(** ** The call pattern *)

(** [TypeBoundMap = DenseMap<std::pair<StringRef, int>, Type>]. *)
Abbreviation TypeBoundMap := (gmap (string * nat) Ty).

(** The loop over [llvm::enumerate(adaptor.getOperands())], lines 116-133. *)
Fixpoint convertOperands (typeBoundMap : TypeBoundMap) (callee : string)
    (operands : list (nat * Value)) (newOperands : list Value)
    : Rewrite.M (list Value) :=
  match operands with
  | [] => Rewrite.ret newOperands
  | (index, value) :: rest =>
      if isaNoneType (getType value) then
        convertOperands typeBoundMap callee rest newOperands
      else
        match typeBoundMap !! (callee, index) with
        | Some bound =>
            if isaValueTensorType bound then
              copy <- copyTensorToType bound value ;;
              convertOperands typeBoundMap callee rest (newOperands ++ [copy])
            else
              Rewrite.notifyMatchFailure unimplementedBound
        | None =>
            convertOperands typeBoundMap callee rest (newOperands ++ [value])
        end
  end.

(** The loop over [call.getResultTypes()], lines 137-151. *)
Fixpoint reconstructResults (newCall : Operation) (types : list Ty)
    (newOpResultIdx : nat) (newResults : list Value) : Rewrite.M (list Value) :=
  match types with
  | [] => Rewrite.ret newResults
  | type :: rest =>
      if isaNoneType type then
        none <- Rewrite.create ConstantNoneOp [] [type] ;;
        reconstructResults newCall rest newOpResultIdx
          (newResults ++ [asValue none])
      else if isaTupleType type then
        tuple <- Rewrite.create PrimTupleConstructOp (getResults newCall) [type] ;;
        reconstructResults newCall rest newOpResultIdx
          (newResults ++ [asValue tuple])
      else
        result <- Rewrite.assertSome (getResult newCall newOpResultIdx) ;;
        reconstructResults newCall rest (S newOpResultIdx)
          (newResults ++ [result])
  end.

Definition getCallee (call : Operation) : string :=
  match opName call with CallOp callee => callee | _ => "" end.

(** [AdjustCallingConventionForCall::matchAndRewrite].  [adaptorOperands]
    are the operands as remapped by the conversion engine. *)
Definition matchAndRewriteCall (typeBoundMap : TypeBoundMap) (call : Operation)
    (adaptorOperands : list Value) : Rewrite.M unit :=
  match convertTypes (opResultTypes call) [] with
  | None => Rewrite.failure
  | Some convertedResults =>
      newOperands <- convertOperands typeBoundMap (getCallee call)
                       (enumerate adaptorOperands) [] ;;
      newCall <- Rewrite.create (CallOp (getCallee call)) newOperands
                   convertedResults ;;
      newResults <- reconstructResults newCall (opResultTypes call) 0 [] ;;
      Rewrite.replaceOp call newResults
  end.

(** ** The return pattern *)

(** The loop over [llvm::enumerate(tuple.getContainedTypes())],
    lines 198-203. *)
Fixpoint extractTupleElements (operand : Value) (containedTypes : list (nat * Ty))
    (newOperands : list Value) : Rewrite.M (list Value) :=
  match containedTypes with
  | [] => Rewrite.ret newOperands
  | (index, type) :: rest =>
      i <- Rewrite.create (ConstantIntOp (Z.of_nat index)) [] [torchIntType] ;;
      element <- Rewrite.create PrimTupleIndexOp [operand; asValue i] [type] ;;
      extractTupleElements operand rest (newOperands ++ [asValue element])
  end.

(** The body of the [vals.size() > 1] branch, lines 193-208. *)
Definition convertMultiValueGroup (vals : list Value) (newOperands : list Value)
    : Rewrite.M (list Value) :=
  match vals with
  | [] => Rewrite.ret newOperands
  | first :: _ =>
      match getDefiningOp first with
      | Some definingOp =>
          if isaUnrealizedConversionCastOp definingOp then
            operand <- Rewrite.assertSome (getOperand definingOp 0) ;;
            match dynCastTupleType (getType operand) with
            | Some containedTypes =>
                extractTupleElements operand (enumerate containedTypes)
                  newOperands
            | None => Rewrite.ret (newOperands ++ vals)
            end
          else Rewrite.ret (newOperands ++ vals)
      | None => Rewrite.ret (newOperands ++ vals)
      end
  end.

(** The loop over [adaptor.getOperands()] of the [OneToNOpAdaptor],
    lines 170-210. *)
Fixpoint convertReturnOperands (groups : list (list Value))
    (newOperands : list Value) : Rewrite.M (list Value) :=
  match groups with
  | [] => Rewrite.ret newOperands
  | vals :: rest =>
      if decide (length vals = 1) then
        match vals with
        | v :: _ =>
            if isaNoneType (getType v) then convertReturnOperands rest newOperands
            else convertReturnOperands rest (newOperands ++ [v])
        | [] => convertReturnOperands rest newOperands
        end
      else if decide (1 < length vals) then
        newOperands' <- convertMultiValueGroup vals newOperands ;;
        convertReturnOperands rest newOperands'
      else
        convertReturnOperands rest newOperands
  end.

(** [AdjustCallingConventionForReturn::matchAndRewrite]; the new return
    has no results, so the old one is replaced by no values. *)
Definition matchAndRewriteReturn (op : Operation)
    (adaptorOperands : list (list Value)) : Rewrite.M unit :=
  newOperands <- convertReturnOperands adaptorOperands [] ;;
  newReturn <- Rewrite.create ReturnOp newOperands [] ;;
  Rewrite.replaceOp op (getResults newReturn).

(** ** The driver: legality *)

(** The first loop of the [func::FuncOp] legality callback, lines 243-248. *)
Fixpoint argumentsLegal (func : FuncOp) (indices : list nat) : bool :=
  match indices with
  | [] => true
  | i :: rest =>
      match getArgAttr func i typeBoundIdent with
      | Some _ => false
      | None =>
          if match argumentTypes func !! i with
             | Some type => isaNoneType type
             | None => false
             end then false
          else argumentsLegal func rest
      end
  end.

(** The second loop, lines 249-252. *)
Fixpoint resultsLegal (func : FuncOp) (indices : list nat) : bool :=
  match indices with
  | [] => true
  | i :: rest =>
      if match resultTypes func !! i with
         | Some type => isaNoneType type
         | None => false
         end then false
      else resultsLegal func rest
  end.

Definition isLegalFuncOp (func : FuncOp) : bool :=
  if argumentsLegal func (seq 0 (getNumArguments func))
  then resultsLegal func (seq 0 (getNumResults func))
  else false.

(** The two walks filling [opsInOriginalProgram], lines 259-264. *)
Definition opsInOriginalProgram (func : FuncOp) : gset nat :=
  let calls :=
    foldl (fun (s : gset nat) op => if isCallOp op then {[opId op]} ∪ s else s)
          ∅ (body func) in
  foldl (fun (s : gset nat) op => if isReturnOp op then {[opId op]} ∪ s else s)
        calls (body func).

Inductive Legality : Type := Legal | Illegal | UnknownLegality.

(** The conversion target for the operations of a body, lines 265-278:
    calls and returns are legal unless they were in the original program;
    the operations the patterns create are legal ([CopyTensorToTypeOp]
    stands for the copy and static-info cast operations of lines 271-272);
    indirect calls are illegal; nothing is said about any other
    operation. *)
Definition opLegality (original : gset nat) (op : Operation) : Legality :=
  match opName op with
  | CallOp _ | ReturnOp =>
      if bool_decide (opId op ∈ original) then Illegal else Legal
  | CopyTensorToTypeOp | ConstantNoneOp | ConstantIntOp _
  | PrimTupleIndexOp | PrimTupleConstructOp => Legal
  | CallIndirectOp => Illegal
  | UnrealizedConversionCastOp | OtherOp _ => UnknownLegality
  end.

Definition isLegalOp (original : gset nat) (op : Operation) : bool :=
  match opLegality original op with Legal => true | _ => false end.

(** ** The driver: conversion *)

Section ConversionEngine.

(** The operand remapping of the conversion engine, which the patterns
    see through their adaptors: one value per operand for the call
    pattern's [OpAdaptor], a group of values per operand for the return
    pattern's [OneToNOpAdaptor].  The engine is not part of the pass, so
    the driver is stated for every remapping. *)
Variable remappedOperands : Operation -> list Value.
Variable remappedOperandGroups : Operation -> list (list Value).

(** The patterns registered at lines 236-239 that apply to body
    operations. *)
Definition patternFor (typeBoundMap : TypeBoundMap) (op : Operation)
    : option (Rewrite.M unit) :=
  match opName op with
  | CallOp _ =>
      Some (matchAndRewriteCall typeBoundMap op (remappedOperands op))
  | ReturnOp =>
      Some (matchAndRewriteReturn op (remappedOperandGroups op))
  | _ => None
  end.

(** Modelled from the spec: the conversion engine behind
    [applyPartialConversion] is an external collaborator.  Per the spec
    it applies the registered rules to reach the legality predicate,
    leaves an operation unchanged if it is already legal, and fails when
    an illegal operation has no rule or its rule fails.  One rule
    application yields the operations it created, all of which have to
    be legal. *)
Definition legalizeWithPattern (typeBoundMap : TypeBoundMap)
    (original : gset nat) (op : Operation) (st : RewriterState)
    : Outcome (list Operation * RewriterState) :=
  match patternFor typeBoundMap op with
  | None => Failure None
  | Some pattern =>
      match pattern (mkRewriterState (nextId st) [] (replacements st)) with
      | Ok (_, st') =>
          if forallb (isLegalOp original) (createdOps st')
          then Ok (createdOps st',
                   mkRewriterState (nextId st')
                     (createdOps st ++ createdOps st') (replacements st'))
          else Failure None
      | Failure diag => Failure diag
      | AssertionFailure => AssertionFailure
      end
  end.

(** Modelled from the spec: partial conversion of the operations of a
    body, in walk order.  A legal operation is kept; an operation that
    is rewritten is replaced by what its rule created; an illegal
    operation that cannot be rewritten fails the conversion; an
    operation of unknown legality that cannot be rewritten is kept. *)
Fixpoint convertOperations (typeBoundMap : TypeBoundMap)
    (original : gset nat) (ops : list Operation) (newBody : list Operation)
    (st : RewriterState) : Outcome (list Operation * RewriterState) :=
  match ops with
  | [] => Ok (newBody, st)
  | op :: rest =>
      match opLegality original op with
      | Legal =>
          convertOperations typeBoundMap original rest (newBody ++ [op]) st
      | legality =>
          match legalizeWithPattern typeBoundMap original op st with
          | Ok (created, st') =>
              convertOperations typeBoundMap original rest
                (newBody ++ created) st'
          | Failure diag =>
              match legality with
              | Illegal => Failure diag
              | _ => convertOperations typeBoundMap original rest
                       (newBody ++ [op]) st
              end
          | AssertionFailure => AssertionFailure
          end
      end
  end.

(** Modelled from the spec: legalization of the function operation
    itself.  A legal function is skipped; an illegal one is rewritten by
    the signature pattern, and has to be legal afterwards. *)
Definition legalizeFuncOp (func : FuncOp) (st : RewriterState)
    : Outcome FuncOp :=
  if isLegalFuncOp func then Ok func
  else match matchAndRewriteFunc func st with
       | Ok (func', _) =>
           if isLegalFuncOp func' then Ok func' else Failure None
       | Failure diag => Failure diag
       | AssertionFailure => AssertionFailure
       end.

(** A rewriter whose fresh identities lie above every operation of the
    function. *)
Definition initialRewriter (func : FuncOp) : RewriterState :=
  mkRewriterState (S (max_list (map opId (body func)))) [] ∅.

Definition setBody (func : FuncOp) (newBody : list Operation) : FuncOp :=
  mkFuncOp (symName func) (argumentTypes func) (resultTypes func)
    (argAttrs func) (entryBlockArgTypes func) newBody.

(** [adjustCallingConventions(func, typeBoundMap)], lines 218-283. *)
Definition adjustCallingConventions (func : FuncOp)
    (typeBoundMap : TypeBoundMap) : Outcome FuncOp :=
  let original := opsInOriginalProgram func in
  match legalizeFuncOp func (initialRewriter func) with
  | Ok func' =>
      match convertOperations typeBoundMap original (body func) []
              (initialRewriter func) with
      | Ok (newBody, _) => Ok (setBody func' newBody)
      | Failure diag => Failure diag
      | AssertionFailure => AssertionFailure
      end
  | Failure diag => Failure diag
  | AssertionFailure => AssertionFailure
  end.

(** The collector loop of [runOnOperation], lines 291-299. *)
Fixpoint collectTypeBounds (func : FuncOp) (indices : list nat)
    (typeBoundMap : TypeBoundMap) : TypeBoundMap :=
  match indices with
  | [] => typeBoundMap
  | i :: rest =>
      match getArgAttrOfTypeTypeAttr func i typeBoundIdent with
      | None => collectTypeBounds func rest typeBoundMap
      | Some value =>
          collectTypeBounds func rest (<[(symName func, i) := value]> typeBoundMap)
      end
  end.

Definition buildTypeBoundMap (module : list FuncOp) : TypeBoundMap :=
  foldl (fun m func => collectTypeBounds func (seq 0 (getNumArguments func)) m)
        ∅ module.

(** What the pass leaves behind: the module after a successful run, or
    the module as it stands when [signalPassFailure] is called, or a
    crash. *)
Inductive PassResult : Type :=
  | PassSucceeded (module : list FuncOp)
  | PassFailed (module : list FuncOp) (diag : option string)
  | PassAborted.

(** The second loop of [runOnOperation], lines 300-303.  A failed
    conversion leaves its function as it was; functions converted
    before it stay converted. *)
Fixpoint adjustFunctions (typeBoundMap : TypeBoundMap)
    (funcs : list FuncOp) (converted : list FuncOp) : PassResult :=
  match funcs with
  | [] => PassSucceeded converted
  | func :: rest =>
      match adjustCallingConventions func typeBoundMap with
      | Ok func' => adjustFunctions typeBoundMap rest (converted ++ [func'])
      | Failure diag => PassFailed (converted ++ func :: rest) diag
      | AssertionFailure => PassAborted
      end
  end.

Definition runOnOperation (module : list FuncOp) : PassResult :=
  adjustFunctions (buildTypeBoundMap module) module [].

End ConversionEngine.

(** ** The mappings as the specification words them *)

(** New argument types for one declared argument: none for a [NoneType]
    argument, the bound for a non-value tensor with a value-tensor bound,
    the declared type otherwise. *)
Definition signatureArgumentTypes (func : FuncOp) (index : nat) (type : Ty)
    : list Ty :=
  match type, getArgAttrOfTypeTypeAttr func index typeBoundIdent with
  | NoneType, _ => []
  | NonValueTensorType _, Some (ValueTensorType info) => [ValueTensorType info]
  | _, _ => [type]
  end.

(** New result types for one declared result. *)
Definition signatureResultTypes (type : Ty) : list Ty :=
  match type with
  | NoneType => []
  | TupleType containedTypes => containedTypes
  | _ => [type]
  end.

(** A non-value tensor argument is accepted only with a value-tensor
    bound; every other argument is accepted. *)
Definition argumentAccepted (func : FuncOp) (index : nat) (type : Ty) : bool :=
  if isaNonValueTensorType type
  then match getArgAttrOfTypeTypeAttr func index typeBoundIdent with
       | Some bound => isaValueTensorType bound
       | None => false
       end
  else true.

(** The copy/cast of [value] to [bound], whatever identity the created
    operation received. *)
Definition isCopyTo (bound : Ty) (value copy : Value) : Prop :=
  exists id, copy = asValue (mkOperation id CopyTensorToTypeOp [value] [bound]).

(** The operand list of the new call, operand by operand: a none-typed
    operand is dropped; otherwise an operand whose position has a
    value-tensor bound in the table is wrapped in a copy to that bound,
    and an operand without a table entry is passed as it is. *)
Inductive OperandsAdjusted (typeBoundMap : TypeBoundMap) (callee : string)
    : list (nat * Value) -> list Value -> Prop :=
  | adjusted_nil :
      OperandsAdjusted typeBoundMap callee [] []
  | adjusted_dropped index value rest newOperands :
      isaNoneType (getType value) = true ->
      OperandsAdjusted typeBoundMap callee rest newOperands ->
      OperandsAdjusted typeBoundMap callee ((index, value) :: rest) newOperands
  | adjusted_wrapped index value bound copy rest newOperands :
      isaNoneType (getType value) = false ->
      typeBoundMap !! (callee, index) = Some bound ->
      isaValueTensorType bound = true ->
      isCopyTo bound value copy ->
      OperandsAdjusted typeBoundMap callee rest newOperands ->
      OperandsAdjusted typeBoundMap callee ((index, value) :: rest)
        (copy :: newOperands)
  | adjusted_unchanged index value rest newOperands :
      isaNoneType (getType value) = false ->
      typeBoundMap !! (callee, index) = None ->
      OperandsAdjusted typeBoundMap callee rest newOperands ->
      OperandsAdjusted typeBoundMap callee ((index, value) :: rest)
        (value :: newOperands).

(** Where a replacement value of a rewritten call comes from. *)
Inductive ResultSource : Type :=
  | FromConstantNone
  | FromTupleConstruct (consumed : list ResultSource)
  | FromNewCall (resultNumber : nat)
  | FromElsewhere.

Fixpoint resultSource (v : Value) : ResultSource :=
  match v with
  | OpResult _ ConstantNoneOp _ _ _ => FromConstantNone
  | OpResult _ PrimTupleConstructOp operands _ _ =>
      FromTupleConstruct (map resultSource operands)
  | OpResult _ (CallOp _) _ _ resultNumber => FromNewCall resultNumber
  | _ => FromElsewhere
  end.

(** The reconstruction as the specification words it: walking the
    original result types with a cursor into the new call's results, a
    none-typed result takes a fresh constant, a tuple-typed result
    consumes the next N results and moves the cursor past them, any other
    result takes the next single result. *)
Fixpoint specResultSources (types : list Ty) (cursor : nat) : list ResultSource :=
  match types with
  | [] => []
  | NoneType :: rest => FromConstantNone :: specResultSources rest cursor
  | TupleType containedTypes :: rest =>
      FromTupleConstruct (map FromNewCall (seq cursor (length containedTypes)))
        :: specResultSources rest (cursor + length containedTypes)
  | _ :: rest => FromNewCall cursor :: specResultSources rest (S cursor)
  end.

(** The number of results the reconstruction takes one by one from the
    new call. *)
Fixpoint plainResultCount (types : list Ty) : nat :=
  match types with
  | [] => 0
  | type :: rest =>
      if isaNoneType type then plainResultCount rest
      else if isaTupleType type then plainResultCount rest
      else S (plainResultCount rest)
  end.

(** [element] is an indexed extraction of element [index], of type [type],
    from [tuple], whatever identities the two created operations received. *)
Definition isTupleElement (tuple : Value) (index : nat) (type : Ty)
    (element : Value) : Prop :=
  exists idInt idIndex,
    element
      = asValue (mkOperation idIndex PrimTupleIndexOp
                   [tuple;
                    asValue (mkOperation idInt (ConstantIntOp (Z.of_nat index))
                               [] [torchIntType])]
                   [type]).

(** The first value of the group is produced by a placeholder cast whose
    operand [tuple] has the tuple type of [containedTypes]. *)
Definition CastOverTuple (vals : list Value) (tuple : Value)
    (containedTypes : list Ty) : Prop :=
  exists first definingOp,
    head vals = Some first
    /\ getDefiningOp first = Some definingOp
    /\ isaUnrealizedConversionCastOp definingOp = true
    /\ getOperand definingOp 0 = Some tuple
    /\ getType tuple = TupleType containedTypes.

(** The operand list of the new return, group by group. *)
Inductive ReturnOperandsAdjusted : list (list Value) -> list Value -> Prop :=
  | returned_nil :
      ReturnOperandsAdjusted [] []
  | returned_empty rest newOperands :
      ReturnOperandsAdjusted rest newOperands ->
      ReturnOperandsAdjusted ([] :: rest) newOperands
  | returned_none value rest newOperands :
      isaNoneType (getType value) = true ->
      ReturnOperandsAdjusted rest newOperands ->
      ReturnOperandsAdjusted ([value] :: rest) newOperands
  | returned_single value rest newOperands :
      isaNoneType (getType value) = false ->
      ReturnOperandsAdjusted rest newOperands ->
      ReturnOperandsAdjusted ([value] :: rest) (value :: newOperands)
  | returned_tuple vals tuple containedTypes elements rest newOperands :
      1 < length vals ->
      CastOverTuple vals tuple containedTypes ->
      Forall2 (fun p element => isTupleElement tuple p.1 p.2 element)
              (enumerate containedTypes) elements ->
      ReturnOperandsAdjusted rest newOperands ->
      ReturnOperandsAdjusted (vals :: rest) (elements ++ newOperands)
  | returned_group vals rest newOperands :
      1 < length vals ->
      (forall tuple containedTypes, ~ CastOverTuple vals tuple containedTypes) ->
      ReturnOperandsAdjusted rest newOperands ->
      ReturnOperandsAdjusted (vals :: rest) (vals ++ newOperands).

(** Every placeholder cast that heads a multi-value group has an operand. *)
Definition castsHaveOperand (groups : list (list Value)) : Prop :=
  Forall (fun vals =>
            forall first definingOp,
              1 < length vals ->
              head vals = Some first ->
              getDefiningOp first = Some definingOp ->
              isaUnrealizedConversionCastOp definingOp = true ->
              is_Some (getOperand definingOp 0))
         groups.

(** What the conversion makes of one operation of a body: the operation
    is kept, which never happens to an illegal operation, or it is
    replaced by the operations created by one successful application of
    its pattern, all of them legal. *)
Inductive Converted (remappedOperands : Operation -> list Value)
    (remappedOperandGroups : Operation -> list (list Value))
    (typeBoundMap : TypeBoundMap) (original : gset nat) (op : Operation)
    : list Operation -> Prop :=
  | converted_kept :
      opLegality original op <> Illegal ->
      Converted remappedOperands remappedOperandGroups typeBoundMap original
        op [op]
  | converted_rewritten pattern st u st' :
      opLegality original op <> Legal ->
      patternFor remappedOperands remappedOperandGroups typeBoundMap op
        = Some pattern ->
      createdOps st = [] ->
      pattern st = Ok (u, st') ->
      Forall (fun new => opLegality original new = Legal) (createdOps st') ->
      Converted remappedOperands remappedOperandGroups typeBoundMap original
        op (createdOps st').

(** A rewriter state only grows: created operations are appended, fresh
    identities increase, and recorded replacements are kept unless the
    pattern replaces the operation itself. *)
Definition extends (st st' : RewriterState) : Prop :=
  (exists extra, createdOps st' = createdOps st ++ extra)
  /\ nextId st <= nextId st'
  /\ replacements st' = replacements st.


(** ** Concrete programs used to exercise the statements *)

Definition tensor : Ty := NonValueTensorType 0.
Definition vtensor : Ty := ValueTensorType 1.
Definition intType : Ty := OtherType 1.

Definition emptyRewriter : RewriterState := mkRewriterState 100 [] ∅.

(** [func @basic(%arg0: tensor {type_bound = vtensor}, %arg1: none,
    %arg2: int) -> (none, tuple<tensor, tensor>, int)]. *)
Definition basicFunc : FuncOp :=
  mkFuncOp "basic" [tensor; NoneType; intType]
    [NoneType; TupleType [tensor; tensor]; intType]
    [{[typeBoundIdent := TypeAttr vtensor]}; ∅; ∅]
    [tensor; NoneType; intType] [].

(** [func @unbound(%arg0: none, %arg1: tensor)]: a non-value tensor
    argument without any annotation, next to a none-typed argument. *)
Definition unboundFunc : FuncOp :=
  mkFuncOp "unbound" [NoneType; tensor] [] [∅; ∅] [NoneType; tensor] [].

(** [func @no_type_bound(%arg0: tensor) -> tensor { return %arg0 }]: the
    same kind of argument in a function that is legal as it stands. *)
Definition noTypeBoundFunc : FuncOp :=
  mkFuncOp "no_type_bound" [tensor] [tensor] [∅] [tensor]
    [mkOperation 1 ReturnOp [BlockArgument 0 tensor] []].

(** [%r:2 = call @f() : () -> (tuple<tensor, tensor>, tensor)]. *)
Definition tupleAndTensorCall : Operation :=
  mkOperation 7 (CallOp "f") [] [TupleType [tensor; tensor]; tensor].

(** [%r = call @g() : () -> tuple<tensor, tensor>]. *)
Definition tupleCall : Operation :=
  mkOperation 7 (CallOp "g") [] [TupleType [tensor; tensor]].

(** The replacement values recorded for [op], if the pattern succeeded. *)
Definition replacementsFor (op : Operation) (outcome : Outcome (unit * RewriterState))
    : option (list Value) :=
  match outcome with
  | Ok (_, st) => replacements st !! opId op
  | _ => None
  end.

(** [call @h(%none, %t, %i)] with a table entry for the second operand
    only. *)
Definition mixedOperands : list Value :=
  [BlockArgument 0 NoneType; BlockArgument 1 tensor; BlockArgument 2 intType].

Definition mixedCall : Operation :=
  mkOperation 9 (CallOp "h") mixedOperands [NoneType; intType].

Definition mixedTypeBounds : TypeBoundMap := {[ ("h", 1) := vtensor ]}.

(** [%1 = TupleConstruct %arg0, %arg1], the two placeholder casts the
    engine puts in front of [return %1], and a return whose operands are
    a none, an int, the flattened tuple and a pair of plain values. *)
Definition tupleValue : Value :=
  OpResult 40 PrimTupleConstructOp [BlockArgument 0 tensor; BlockArgument 1 tensor]
    [TupleType [tensor; tensor]] 0.

Definition castOf (id : nat) (v : Value) : Value :=
  OpResult id UnrealizedConversionCastOp [v] [tensor] 0.

Definition returnOp : Operation :=
  mkOperation 8 ReturnOp
    [BlockArgument 2 NoneType; BlockArgument 3 intType; tupleValue] [].

Definition returnGroups : list (list Value) :=
  [ [BlockArgument 2 NoneType]; []; [BlockArgument 3 intType];
    [castOf 50 tupleValue; castOf 51 tupleValue];
    [BlockArgument 0 tensor; BlockArgument 1 tensor] ].

(** An engine that remaps nothing: every operand is seen as it is. *)
Definition operandsAsTheyAre (op : Operation) : list Value := opOperands op.

Definition operandsAsSingletons (op : Operation) : list (list Value) :=
  map (fun value => [value]) (opOperands op).

(** [func @indirect(%f, %x: int) -> int]
    [{ %r = call_indirect %f(%x); return %r }]. *)
Definition indirectCallOp : Operation :=
  mkOperation 1 CallIndirectOp
    [BlockArgument 0 (OtherType 2); BlockArgument 1 intType] [intType].

Definition indirectFunc : FuncOp :=
  mkFuncOp "indirect" [OtherType 2; intType] [intType] [∅; ∅]
    [OtherType 2; intType]
    [indirectCallOp; mkOperation 2 ReturnOp [asValue indirectCallOp] []].

(** [func @caller(%x: int) -> int { %r = call @callee(%x); return %r }]:
    nothing in it needs adjusting. *)
Definition plainCallOp : Operation :=
  mkOperation 1 (CallOp "callee") [BlockArgument 0 intType] [intType].

Definition plainReturnOp : Operation :=
  mkOperation 2 ReturnOp [asValue plainCallOp] [].

Definition plainFunc : FuncOp :=
  mkFuncOp "caller" [intType] [intType] [∅] [intType]
    [plainCallOp; plainReturnOp].

Definition emptyReturnOp : Operation := mkOperation 1 ReturnOp [] [].

(** [func @rejected(%arg0: tensor {type_bound = tensor})]: a non-value
    tensor argument whose bound is itself a non-value tensor. *)
Definition rejectedFunc : FuncOp :=
  mkFuncOp "rejected" [tensor] [] [{[typeBoundIdent := TypeAttr tensor]}]
    [tensor] [emptyReturnOp].

(** [func @alias(%arg0: vtensor {type_bound = tensor})]: the same bound on
    a value tensor argument. *)
Definition aliasFunc : FuncOp :=
  mkFuncOp "alias" [vtensor] [] [{[typeBoundIdent := TypeAttr tensor]}]
    [vtensor] [emptyReturnOp].

(** [func @tupled(%arg0: tuple<tensor, tensor>)]. *)
Definition tupledFunc : FuncOp :=
  mkFuncOp "tupled" [TupleType [tensor; tensor]] [] [∅]
    [TupleType [tensor; tensor]] [emptyReturnOp].

(** The only function of a module after a successful run. *)
Definition onlyFunction (result : PassResult) : option FuncOp :=
  match result with
  | PassSucceeded [func] => Some func
  | _ => None
  end.

(** ** Further notions used to state what the pass guarantees *)

(** The operations the call pattern creates for a call to [callee]. *)
Definition createdByCallPattern (callee : string) (name : OperationName) : bool :=
  match name with
  | CopyTensorToTypeOp | ConstantNoneOp | PrimTupleConstructOp => true
  | CallOp callee' => bool_decide (callee' = callee)
  | _ => false
  end.

(** The operations the return pattern creates. *)
Definition createdByReturnPattern (name : OperationName) : bool :=
  match name with
  | ConstantIntOp _ | PrimTupleIndexOp | ReturnOp => true
  | _ => false
  end.

(** From [st] to [st'] only operations of the [allowed] kinds were
    created, with consecutive fresh identities. *)
Definition createsOnly (allowed : OperationName -> bool)
    (st st' : RewriterState) : Prop :=
  exists extra,
    createdOps st' = createdOps st ++ extra
    /\ map opId extra = seq (nextId st) (length extra)
    /\ nextId st' = nextId st + length extra
    /\ Forall (fun op => allowed (opName op) = true) extra.

(** The value group the engine hands to the return pattern for an operand
    of the given original type: nothing for a none-typed operand it
    dropped, one value of that type when the type is not a tuple, and a
    multi-value group headed by a placeholder cast over the tuple for a
    tuple-typed operand. *)
Inductive GroupFor : Ty -> list Value -> Prop :=
  | group_dropped :
      GroupFor NoneType []
  | group_single type value :
      isaTupleType type = false ->
      getType value = type ->
      GroupFor type [value]
  | group_tuple containedTypes vals tuple :
      1 < length vals ->
      CastOverTuple vals tuple containedTypes ->
      GroupFor (TupleType containedTypes) vals.

(** A tuple type none of whose contained types is [NoneType]; any other
    type qualifies. *)
Definition tupleWithoutNone (type : Ty) : Prop :=
  forall containedTypes,
    type = TupleType containedTypes ->
    Forall (fun contained => isaNoneType contained = false) containedTypes.

(** A module of two functions: [@basic], annotated, and [@caller], which
    calls it. *)
Definition basicCallOperands : list Value :=
  [BlockArgument 0 tensor; BlockArgument 1 NoneType; BlockArgument 2 intType].

Definition basicCall : Operation :=
  mkOperation 5 (CallOp "basic") basicCallOperands
    [NoneType; TupleType [tensor; tensor]; intType].

Definition twoFunctions : list FuncOp := [basicFunc; plainFunc].

(** [%n, %i = call @k(...) : ... -> (none, int)]. *)
Definition noneAndIntCall : Operation :=
  mkOperation 6 (CallOp "k") [] [NoneType; intType].

(** A placeholder cast that lost its operand, heading a two-value group. *)
Definition operandlessCast : Value :=
  OpResult 60 UnrealizedConversionCastOp [] [tensor] 0.

Definition brokenGroups : list (list Value) :=
  [ [operandlessCast; operandlessCast] ].

(** The groups for a return of a none, an int and a tuple of two tensors. *)
Definition typedGroups : list (list Value) :=
  [ []; [BlockArgument 3 intType]; [castOf 50 tupleValue; castOf 51 tupleValue] ].

(** An operand of a call that the call pattern rejects: it is not
    none-typed and the table holds, for its position, a bound that is not
    a value tensor type. *)
Definition callRejected (typeBoundMap : TypeBoundMap) (callee : string)
    (operands : list Value) : Prop :=
  exists i value bound,
    operands !! i = Some value
    /\ isaNoneType (getType value) = false
    /\ typeBoundMap !! (callee, i) = Some bound
    /\ isaValueTensorType bound = false.

(** What the conversion of a function needs: a signature that is legal,
    or that the signature pattern accepts and turns into a legal one; no
    indirect call; no call with a rejected operand; no return with a
    placeholder cast that lacks its operand. *)
Definition bodyOpConvertible (remappedOperands : Operation -> list Value)
    (remappedOperandGroups : Operation -> list (list Value))
    (typeBoundMap : TypeBoundMap) (op : Operation) : Prop :=
  match opName op with
  | CallIndirectOp => False
  | CallOp callee => ~ callRejected typeBoundMap callee (remappedOperands op)
  | ReturnOp => castsHaveOperand (remappedOperandGroups op)
  | _ => True
  end.

Definition signatureConvertible (func : FuncOp) : Prop :=
  isLegalFuncOp func = true
  \/ (forallb (fun p => argumentAccepted func p.1 p.2)
              (enumerate (argumentTypes func)) = true
      /\ Forall tupleWithoutNone (resultTypes func)).

Definition convertible (remappedOperands : Operation -> list Value)
    (remappedOperandGroups : Operation -> list (list Value))
    (typeBoundMap : TypeBoundMap) (func : FuncOp) : Prop :=
  signatureConvertible func
  /\ Forall (bodyOpConvertible remappedOperands remappedOperandGroups typeBoundMap)
            (body func).

(** [%n, %t = call @m() : () -> (none, tuple<tensor, tensor>)]: the tuple
    is the only result that is not none-typed. *)
Definition noneAndTupleCall : Operation :=
  mkOperation 4 (CallOp "m") [] [NoneType; TupleType [tensor; tensor]].

(** * Verified properties *)

(** ** Auxiliary facts *)

Lemma enumerateFrom_lookup {A : Type} (l : list A) (start i : nat) (x : A) :
  l !! i = Some x -> (start + i, x) ∈ enumerateFrom start l.
Proof.
  revert start i. induction l as [|y l IH]; intros start i H; [done|].
  destruct i as [|i]; simpl in *.
  - injection H as ->. rewrite Nat.add_0_r. apply list_elem_of_here.
  - apply list_elem_of_further.
    replace (start + S i) with (S start + i) by lia. by apply IH.
Qed.

Lemma enumerate_lookup {A : Type} (l : list A) (i : nat) (x : A) :
  l !! i = Some x -> (i, x) ∈ enumerate l.
Proof. apply (enumerateFrom_lookup l 0 i x). Qed.

Lemma enumerateFrom_length {A : Type} (l : list A) (start : nat) :
  length (enumerateFrom start l) = length l.
Proof. revert start. induction l; intros; simpl; auto. Qed.

(** *** The signature pattern *)

Lemma removeArgAttr_types func i name :
  argumentTypes (removeArgAttr func i name) = argumentTypes func
  /\ resultTypes (removeArgAttr func i name) = resultTypes func
  /\ body (removeArgAttr func i name) = body func
  /\ symName (removeArgAttr func i name) = symName func.
Proof. done. Qed.

Lemma removeArgAttrs_types (indices : list nat) func name :
  let func' := foldl (fun f i => removeArgAttr f i name) func indices in
  argumentTypes func' = argumentTypes func
  /\ resultTypes func' = resultTypes func
  /\ body func' = body func
  /\ symName func' = symName func.
Proof.
  revert func. induction indices as [|i indices IH]; intros func; [done|].
  simpl. destruct (IH (removeArgAttr func i name)) as (-> & -> & -> & ->).
  done.
Qed.

Lemma clearTypeBounds_types func :
  argumentTypes (clearTypeBounds func) = argumentTypes func
  /\ resultTypes (clearTypeBounds func) = resultTypes func
  /\ body (clearTypeBounds func) = body func
  /\ symName (clearTypeBounds func) = symName func.
Proof. apply removeArgAttrs_types. Qed.

Lemma convertResultTypes_spec (types acc : list Ty) :
  convertResultTypes types acc = acc ++ concat (map signatureResultTypes types).
Proof.
  revert acc. induction types as [|t types IH]; intros acc; simpl.
  - by rewrite app_nil_r.
  - destruct t; simpl; rewrite IH, <- ?app_assoc; done.
Qed.

Lemma convertArguments_spec func (args : list (nat * Ty)) conversion st conversion' st' :
  convertArguments func args conversion st = Ok (conversion', st') ->
  convertedTypes conversion'
    = convertedTypes conversion
        ++ concat (map (fun p => signatureArgumentTypes func p.1 p.2) args)
  /\ forallb (fun p => argumentAccepted func p.1 p.2) args = true.
Proof.
  revert conversion.
  induction args as [|[index type] args IH]; intros conversion H.
  - injection H as <- _. simpl. by rewrite app_nil_r.
  - cbn [map concat forallb fst snd].
    unfold signatureArgumentTypes at 1, argumentAccepted at 1.
    destruct type; simpl in H |- *;
      try (apply IH in H as [-> ->]; simpl; by rewrite <- ?app_assoc).
    unfold Rewrite.bind, Rewrite.assertSome in H.
    destruct (getArgAttrOfTypeTypeAttr func index typeBoundIdent) as [[]|];
      simpl in H |- *; try discriminate.
    apply IH in H as [-> ->]. simpl. by rewrite <- app_assoc.
Qed.

(** The signature pattern stops at the first argument it does not accept:
    with the unsupported-bound diagnostic when that argument carries a
    bound, which is then not a value tensor type. *)
Lemma convertArguments_rejects_bound func (types : list Ty) start k info bound
    conversion st :
  types !! k = Some (NonValueTensorType info) ->
  getArgAttrOfTypeTypeAttr func (start + k) typeBoundIdent = Some bound ->
  isaValueTensorType bound = false ->
  (forall j info', j < k -> types !! j = Some (NonValueTensorType info') ->
                   is_Some (getArgAttrOfTypeTypeAttr func (start + j) typeBoundIdent)) ->
  convertArguments func (enumerateFrom start types) conversion st
    = Failure (Some unimplementedBound).
Proof.
  revert start k conversion.
  induction types as [|type types IH]; intros start k conversion Hk Hbound Hvt Hearlier.
  - by rewrite lookup_nil in Hk.
  - destruct k as [|k]; simpl in Hk.
    + injection Hk as ->. rewrite Nat.add_0_r in Hbound. simpl.
      unfold Rewrite.bind, Rewrite.assertSome. rewrite Hbound. simpl.
      by rewrite Hvt.
    + assert (Hrest : forall conversion',
                 convertArguments func (enumerateFrom (S start) types)
                   conversion' st = Failure (Some unimplementedBound)).
      { intros conversion'. apply (IH (S start) k); try done.
        - by replace (S start + k) with (start + S k) by lia.
        - intros j info' Hj Htype.
          replace (S start + j) with (start + S j) by lia.
          apply (Hearlier (S j) info'); [lia | done]. }
      simpl. destruct type; simpl; try apply Hrest.
      destruct (Hearlier 0 info0) as [bound0 Hbound0]; [lia | done |].
      rewrite Nat.add_0_r in Hbound0.
      unfold Rewrite.bind, Rewrite.assertSome. rewrite Hbound0. simpl.
      destruct (isaValueTensorType bound0); simpl; [apply Hrest | done].
Qed.

(** ... and with a crash when that argument is a non-value tensor without
    a type-attribute bound, [isa<>] being applied to the null type. *)
Lemma convertArguments_crashes func (types : list Ty) start k info conversion st :
  types !! k = Some (NonValueTensorType info) ->
  getArgAttrOfTypeTypeAttr func (start + k) typeBoundIdent = None ->
  (forall j type, j < k -> types !! j = Some type ->
                  argumentAccepted func (start + j) type = true) ->
  convertArguments func (enumerateFrom start types) conversion st
    = AssertionFailure.
Proof.
  revert start k conversion.
  induction types as [|type types IH]; intros start k conversion Hk Hbound Hearlier.
  - by rewrite lookup_nil in Hk.
  - destruct k as [|k]; simpl in Hk.
    + injection Hk as ->. rewrite Nat.add_0_r in Hbound. simpl.
      unfold Rewrite.bind, Rewrite.assertSome. by rewrite Hbound.
    + assert (Hrest : forall conversion',
                 convertArguments func (enumerateFrom (S start) types)
                   conversion' st = AssertionFailure).
      { intros conversion'. apply (IH (S start) k); try done.
        - by replace (S start + k) with (start + S k) by lia.
        - intros j type' Hj Htype.
          replace (S start + j) with (start + S j) by lia.
          apply (Hearlier (S j) type'); [lia | done]. }
      pose proof (Hearlier 0 type (Nat.lt_0_succ k) eq_refl) as Hhead.
      rewrite Nat.add_0_r in Hhead. unfold argumentAccepted in Hhead.
      simpl. destruct type; simpl in *; try apply Hrest.
      unfold Rewrite.bind, Rewrite.assertSome.
      destruct (getArgAttrOfTypeTypeAttr func start typeBoundIdent) as [bound0|];
        [|discriminate].
      simpl. rewrite Hhead. simpl. apply Hrest.
Qed.

(** The signature pattern ends in success, in the unsupported-bound
    failure or in a crash, never in a bare failure. *)
Lemma convertArguments_outcome func (args : list (nat * Ty)) conversion st :
  (exists conversion', convertArguments func args conversion st = Ok (conversion', st))
  \/ convertArguments func args conversion st = Failure (Some unimplementedBound)
  \/ convertArguments func args conversion st = AssertionFailure.
Proof.
  revert conversion.
  induction args as [|[index type] args IH]; intros conversion; simpl.
  - left. by eexists.
  - destruct type; simpl; try apply IH.
    unfold Rewrite.bind, Rewrite.assertSome.
    destruct (getArgAttrOfTypeTypeAttr func index typeBoundIdent) as [bound|];
      simpl; [|by right; right].
    destruct (isaValueTensorType bound); simpl; [apply IH | by right; left].
Qed.

Lemma convertArguments_accepts func (args : list (nat * Ty)) conversion st :
  forallb (fun p => argumentAccepted func p.1 p.2) args = true ->
  exists conversion', convertArguments func args conversion st = Ok (conversion', st).
Proof.
  revert conversion.
  induction args as [|[index type] args IH]; intros conversion H; simpl in *.
  - by eexists.
  - apply andb_prop in H as [Hacc H]. unfold argumentAccepted in Hacc.
    destruct (isaNonValueTensorType type).
    + unfold Rewrite.bind, Rewrite.assertSome.
      destruct (getArgAttrOfTypeTypeAttr func index typeBoundIdent) as [bound|];
        [|discriminate].
      simpl. rewrite Hacc. simpl. by apply IH.
    + destruct (isaNoneType type); by apply IH.
Qed.

(** *** The call pattern *)

Lemma extends_refl st : extends st st.
Proof. split; [exists []; by rewrite app_nil_r | done]. Qed.

Lemma extends_trans st1 st2 st3 : extends st1 st2 -> extends st2 st3 -> extends st1 st3.
Proof.
  intros ([e1 H1] & Hn1 & Hr1) ([e2 H2] & Hn2 & Hr2). split; [|split].
  - exists (e1 ++ e2). by rewrite H2, H1, app_assoc.
  - lia.
  - congruence.
Qed.

Lemma create_extends name operands types st op st' :
  Rewrite.create name operands types st = Ok (op, st') ->
  op = mkOperation (nextId st) name operands types
  /\ createdOps st' = createdOps st ++ [op]
  /\ nextId st' = S (nextId st)
  /\ replacements st' = replacements st.
Proof. unfold Rewrite.create. intros H. injection H as <- <-. done. Qed.

Lemma convertOperands_spec typeBoundMap callee (operands : list (nat * Value))
    acc st newOperands st' :
  convertOperands typeBoundMap callee operands acc st = Ok (newOperands, st') ->
  exists tail,
    newOperands = acc ++ tail
    /\ OperandsAdjusted typeBoundMap callee operands tail
    /\ extends st st'.
Proof.
  revert acc st.
  induction operands as [|[index value] operands IH]; intros acc st H; simpl in H.
  - injection H as <- <-. exists []. rewrite app_nil_r.
    split; [done|]. split; [constructor | apply extends_refl].
  - destruct (isaNoneType (getType value)) eqn:Hnone.
    { apply IH in H as (tail & -> & Hadj & Hext).
      exists tail. split; [done|]. split; [by constructor | done]. }
    destruct (typeBoundMap !! (callee, index)) as [bound|] eqn:Hbound.
    + destruct (isaValueTensorType bound) eqn:Hvt; [|discriminate].
      unfold copyTensorToType, Rewrite.bind, Rewrite.create, Rewrite.ret in H.
      simpl in H.
      apply IH in H as (tail & -> & Hadj & Hext).
      eexists (_ :: tail). rewrite <- app_assoc. split; [done|]. split.
      * eapply adjusted_wrapped; eauto. by eexists.
      * eapply extends_trans; [|exact Hext].
        split; [by eexists | simpl; split; [lia | done]].
    + apply IH in H as (tail & -> & Hadj & Hext).
      exists (value :: tail). rewrite <- app_assoc. split; [done|].
      split; [by constructor | done].
Qed.

(** The operand loop ends in success or in the unsupported-bound failure,
    never in a failed assertion. *)
Lemma convertOperands_outcome typeBoundMap callee (operands : list (nat * Value)) acc st :
  (exists newOperands st',
      convertOperands typeBoundMap callee operands acc st = Ok (newOperands, st'))
  \/ convertOperands typeBoundMap callee operands acc st
       = Failure (Some unimplementedBound).
Proof.
  revert acc st.
  induction operands as [|[index value] operands IH]; intros acc st; simpl.
  - left. by do 2 eexists.
  - destruct (isaNoneType (getType value)); [apply IH|].
    destruct (typeBoundMap !! (callee, index)) as [bound|]; [|apply IH].
    destruct (isaValueTensorType bound); [|by right].
    unfold copyTensorToType, Rewrite.bind, Rewrite.create, Rewrite.ret. simpl.
    apply IH.
Qed.

(** An operand that is not none-typed and whose table entry is not a
    value tensor fails the operand loop. *)
Lemma convertOperands_rejects typeBoundMap callee (operands : list (nat * Value))
    acc st index value bound :
  (index, value) ∈ operands ->
  isaNoneType (getType value) = false ->
  typeBoundMap !! (callee, index) = Some bound ->
  isaValueTensorType bound = false ->
  convertOperands typeBoundMap callee operands acc st
    = Failure (Some unimplementedBound).
Proof.
  intros Hin Hnone Hbound Hvt.
  destruct (convertOperands_outcome typeBoundMap callee operands acc st)
    as [(newOperands & st' & H)|H]; [|done].
  exfalso. apply convertOperands_spec in H as (tail & _ & Hadj & _).
  clear acc st st' newOperands.
  induction Hadj as [| | i v b c rest out Hn Hb Hv _ _ IH |];
    try (apply elem_of_cons in Hin as [Heq|Hin]; [injection Heq as <- <-|]; eauto;
         congruence).
  by apply not_elem_of_nil in Hin.
Qed.

Lemma convertType_success type : exists converted, convertType type = Some converted.
Proof.
  unfold convertType.
  destruct (isaNoneType type); [by eexists|].
  destruct (dynCastTupleType type); by eexists.
Qed.

Lemma convertTypes_success (types acc : list Ty) :
  exists converted,
    convertTypes types acc = Some converted
    /\ length acc + plainResultCount types <= length converted.
Proof.
  revert acc. induction types as [|type types IH]; intros acc; simpl.
  - eexists. split; [done | lia].
  - destruct type; simpl;
      match goal with
      | |- context [convertTypes types ?acc'] =>
          destruct (IH acc') as (converted & -> & Hlen);
          exists converted; split; [done|];
          rewrite ?length_app in Hlen; simpl in Hlen; lia
      end.
Qed.

Lemma reconstructResults_spec newCall (types : list Ty) idx acc st newResults st' :
  reconstructResults newCall types idx acc st = Ok (newResults, st') ->
  exists tail,
    newResults = acc ++ tail
    /\ length tail = length types
    /\ (forall i type,
          types !! i = Some type -> isaNoneType type = true ->
          exists id,
            nextId st <= id
            /\ tail !! i = Some (asValue (mkOperation id ConstantNoneOp [] [type])))
    /\ extends st st'.
Proof.
  revert idx acc st.
  induction types as [|type types IH]; intros idx acc st H; simpl in H.
  - injection H as <- <-. exists []. rewrite app_nil_r.
    split; [done|]. split; [done|]. split; [|apply extends_refl].
    intros i type Hi. by rewrite lookup_nil in Hi.
  - destruct (isaNoneType type) eqn:Hnone; [|destruct (isaTupleType type) eqn:Htuple].
    + unfold Rewrite.bind, Rewrite.create in H. simpl in H.
      apply IH in H as (tail & -> & Hlen & Hnones & Hext).
      eexists (_ :: tail). rewrite <- app_assoc. split; [done|].
      split; [simpl; lia|]. split.
      * intros [|i] type' Hi Hn; simpl in Hi.
        -- injection Hi as <-. exists (nextId st). done.
        -- destruct (Hnones i type' Hi Hn) as (id & Hid & Hl). simpl in Hid.
           exists id. split; [lia | done].
      * eapply extends_trans; [|exact Hext].
        split; [by eexists | simpl; split; [lia | done]].
    + unfold Rewrite.bind, Rewrite.create in H. simpl in H.
      apply IH in H as (tail & -> & Hlen & Hnones & Hext).
      eexists (_ :: tail). rewrite <- app_assoc. split; [done|].
      split; [simpl; lia|]. split.
      * intros [|i] type' Hi Hn; simpl in Hi.
        -- injection Hi as <-. congruence.
        -- destruct (Hnones i type' Hi Hn) as (id & Hid & Hl). simpl in Hid.
           exists id. split; [lia | done].
      * eapply extends_trans; [|exact Hext].
        split; [by eexists | simpl; split; [lia | done]].
    + unfold Rewrite.bind, Rewrite.assertSome in H.
      destruct (getResult newCall idx) as [result|]; [|discriminate].
      apply IH in H as (tail & -> & Hlen & Hnones & Hext).
      exists (result :: tail). rewrite <- app_assoc. split; [done|].
      split; [simpl; lia|]. split; [|done].
      intros [|i] type' Hi Hn; simpl in Hi.
      * injection Hi as <-. congruence.
      * by apply Hnones.
Qed.

(** The cursor never runs past the results of the new call. *)
Lemma reconstructResults_total newCall (types : list Ty) idx acc st :
  idx + plainResultCount types <= length (opResultTypes newCall) ->
  exists newResults st',
    reconstructResults newCall types idx acc st = Ok (newResults, st').
Proof.
  revert idx acc st.
  induction types as [|type types IH]; intros idx acc st Hlen; simpl in *.
  - by do 2 eexists.
  - destruct (isaNoneType type); [|destruct (isaTupleType type)].
    + unfold Rewrite.bind, Rewrite.create. simpl. by apply IH.
    + unfold Rewrite.bind, Rewrite.create. simpl. by apply IH.
    + unfold Rewrite.bind, Rewrite.assertSome, getResult.
      destruct (decide (idx < length (opResultTypes newCall))); [|lia].
      apply IH. lia.
Qed.

Lemma matchAndRewriteCall_inv typeBoundMap call operands st u st' :
  matchAndRewriteCall typeBoundMap call operands st = Ok (u, st') ->
  exists convertedResults newOperands st1 newResults st3,
    convertTypes (opResultTypes call) [] = Some convertedResults
    /\ convertOperands typeBoundMap (getCallee call) (enumerate operands) [] st
         = Ok (newOperands, st1)
    /\ reconstructResults
         (mkOperation (nextId st1) (CallOp (getCallee call)) newOperands
            convertedResults)
         (opResultTypes call) 0 []
         (mkRewriterState (S (nextId st1))
            (createdOps st1
               ++ [mkOperation (nextId st1) (CallOp (getCallee call))
                     newOperands convertedResults])
            (replacements st1))
         = Ok (newResults, st3)
    /\ st' = mkRewriterState (nextId st3) (createdOps st3)
               (<[opId call := newResults]> (replacements st3)).
Proof.
  unfold matchAndRewriteCall. intros H.
  destruct (convertTypes (opResultTypes call) []) as [convertedResults|];
    [|discriminate].
  unfold Rewrite.bind in H.
  destruct (convertOperands _ _ _ _ st) as [[newOperands st1]| |] eqn:Hops;
    try discriminate.
  unfold Rewrite.create at 1 in H.
  destruct (reconstructResults _ _ _ _ _) as [[newResults st3]| |] eqn:Hres;
    try discriminate.
  unfold Rewrite.replaceOp in H. injection H as _ <-.
  by exists convertedResults, newOperands, st1, newResults, st3.
Qed.

(** The call pattern ends in success or in the unsupported-bound failure. *)
Lemma matchAndRewriteCall_outcome typeBoundMap call operands st :
  (exists st', matchAndRewriteCall typeBoundMap call operands st = Ok (tt, st'))
  \/ matchAndRewriteCall typeBoundMap call operands st
       = Failure (Some unimplementedBound).
Proof.
  unfold matchAndRewriteCall.
  destruct (convertTypes_success (opResultTypes call) [])
    as (convertedResults & -> & Hlen).
  unfold Rewrite.bind.
  destruct (convertOperands_outcome typeBoundMap (getCallee call)
              (enumerate operands) [] st) as [(newOperands & st1 & ->)| ->];
    [|by right].
  left. unfold Rewrite.create at 1.
  match goal with
  | |- context [reconstructResults ?c ?t 0 [] ?s] =>
      destruct (reconstructResults_total c t 0 [] s) as (newResults & st3 & ->)
  end; [simpl in *; lia|].
  unfold Rewrite.replaceOp. by eexists.
Qed.

Lemma resultSource_getResults newCall callee :
  opName newCall = CallOp callee ->
  map resultSource (getResults newCall)
    = map FromNewCall (seq 0 (length (opResultTypes newCall))).
Proof.
  intros Hname. unfold getResults, getResultUnchecked.
  rewrite map_map. apply map_ext. intros i. simpl. by rewrite Hname.
Qed.

(** For a call whose only result is a tuple, the synthesized tuple
    construction consumes exactly the results of the new call, one per
    contained type, as walking with a cursor does. *)
Lemma single_tuple_reconstruction typeBoundMap call operands st st' containedTypes :
  opResultTypes call = [TupleType containedTypes] ->
  matchAndRewriteCall typeBoundMap call operands st = Ok (tt, st') ->
  map resultSource <$> (replacements st' !! opId call)
    = Some (specResultSources (opResultTypes call) 0).
Proof.
  intros Htypes H.
  apply matchAndRewriteCall_inv in H
    as (convertedResults & newOperands & st1 & newResults & st3
        & Hconv & _ & Hres & ->).
  rewrite Htypes in *. simpl in Hconv. injection Hconv as <-.
  simpl in Hres. unfold Rewrite.bind, Rewrite.create, Rewrite.ret in Hres.
  simpl in Hres. injection Hres as <- <-.
  simpl. rewrite lookup_insert_eq. simpl.
  by rewrite (resultSource_getResults _ (getCallee call)).
Qed.

(** *** The return pattern *)

Lemma extractTupleElements_spec operand (containedTypes : list (nat * Ty)) acc st :
  exists elements st',
    extractTupleElements operand containedTypes acc st
      = Ok (acc ++ elements, st')
    /\ Forall2 (fun p element => isTupleElement operand p.1 p.2 element)
               containedTypes elements
    /\ extends st st'.
Proof.
  revert acc st.
  induction containedTypes as [|[index type] containedTypes IH];
    intros acc st; simpl.
  - exists [], st. rewrite app_nil_r. split; [done|].
    split; [constructor | apply extends_refl].
  - unfold Rewrite.bind, Rewrite.create. simpl.
    match goal with
    | |- context [extractTupleElements operand containedTypes ?acc' ?st1] =>
        destruct (IH acc' st1) as (elements & st' & -> & Hall & Hext)
    end.
    eexists (_ :: elements), st'. rewrite <- app_assoc. split; [done|]. split.
    + constructor; [|done]. by do 2 eexists.
    + eapply extends_trans; [|exact Hext].
      split; [eexists [_; _]; simpl; by rewrite <- app_assoc
             | simpl; split; [lia | done]].
Qed.

Lemma convertMultiValueGroup_spec (vals : list Value) acc st newOperands st' :
  convertMultiValueGroup vals acc st = Ok (newOperands, st') ->
  ((exists tuple containedTypes elements,
       CastOverTuple vals tuple containedTypes
       /\ Forall2 (fun p element => isTupleElement tuple p.1 p.2 element)
                  (enumerate containedTypes) elements
       /\ newOperands = acc ++ elements)
   \/ ((forall tuple containedTypes, ~ CastOverTuple vals tuple containedTypes)
       /\ newOperands = acc ++ vals))
  /\ extends st st'.
Proof.
  unfold convertMultiValueGroup. intros H.
  destruct vals as [|first vals].
  { injection H as <- <-. split; [|apply extends_refl]. right.
    rewrite app_nil_r. split; [|done].
    intros tuple cts (f & d & Hhead & _). discriminate. }
  destruct (getDefiningOp first) as [definingOp|] eqn:Hdef.
  2:{ injection H as <- <-. split; [|apply extends_refl]. right. split; [|done].
      intros tuple cts (f & d & Hhead & Hd & _). simpl in Hhead.
      injection Hhead as <-. congruence. }
  destruct (isaUnrealizedConversionCastOp definingOp) eqn:Hcast.
  2:{ injection H as <- <-. split; [|apply extends_refl]. right. split; [|done].
      intros tuple cts (f & d & Hhead & Hd & Hc & _). simpl in Hhead.
      injection Hhead as <-. congruence. }
  unfold Rewrite.bind, Rewrite.assertSome in H.
  destruct (getOperand definingOp 0) as [operand|] eqn:Hop; [|discriminate].
  destruct (dynCastTupleType (getType operand)) as [containedTypes|] eqn:Htuple.
  - destruct (extractTupleElements_spec operand (enumerate containedTypes) acc st)
      as (elements & st1 & Heq & Hall & Hext).
    rewrite Heq in H. injection H as <- <-. split; [|done]. left.
    exists operand, containedTypes, elements. split; [|done].
    exists first, definingOp. repeat split; try done.
    destruct (getType operand); try discriminate. by injection Htuple as ->.
  - injection H as <- <-. split; [|apply extends_refl]. right. split; [|done].
    intros tuple cts (f & d & Hhead & Hd & _ & Ho & Ht). simpl in Hhead.
    injection Hhead as <-. rewrite Hdef in Hd. injection Hd as <-.
    rewrite Hop in Ho. injection Ho as <-. by rewrite Ht in Htuple.
Qed.

Lemma convertReturnOperands_spec (groups : list (list Value)) acc st newOperands st' :
  convertReturnOperands groups acc st = Ok (newOperands, st') ->
  exists tail,
    newOperands = acc ++ tail
    /\ ReturnOperandsAdjusted groups tail
    /\ extends st st'.
Proof.
  revert acc st.
  induction groups as [|vals groups IH]; intros acc st H; simpl in H.
  - injection H as <- <-. exists []. rewrite app_nil_r.
    split; [done|]. split; [constructor | apply extends_refl].
  - destruct (decide (length vals = 1)) as [Hone|Hone].
    { destruct vals as [|v [|? ?]]; try discriminate.
      destruct (isaNoneType (getType v)) eqn:Hnone.
      - apply IH in H as (tail & -> & Hadj & Hext).
        exists tail. split; [done|]. split; [by constructor | done].
      - apply IH in H as (tail & -> & Hadj & Hext).
        exists (v :: tail). rewrite <- app_assoc. split; [done|].
        split; [by constructor | done]. }
    destruct (decide (1 < length vals)) as [Hmany|Hmany].
    + unfold Rewrite.bind in H.
      destruct (convertMultiValueGroup vals acc st) as [[acc1 st1]| |] eqn:Hgroup;
        try discriminate.
      apply convertMultiValueGroup_spec in Hgroup as [Hshape Hext1].
      apply IH in H as (tail & -> & Hadj & Hext).
      destruct Hshape as [(tuple & cts & elements & Hcast & Hall & ->)|[Hno ->]].
      * exists (elements ++ tail). rewrite app_assoc. split; [done|].
        split; [by econstructor | by eapply extends_trans].
      * exists (vals ++ tail). rewrite app_assoc. split; [done|].
        split; [by constructor | by eapply extends_trans].
    + destruct vals as [|? [|? ?]]; simpl in *; try lia.
      apply IH in H as (tail & -> & Hadj & Hext).
      exists tail. split; [done|]. split; [by constructor | done].
Qed.

(** The return pattern never fails; it asserts only on a placeholder cast
    without an operand. *)
Lemma convertReturnOperands_total (groups : list (list Value)) acc st :
  castsHaveOperand groups ->
  exists newOperands st',
    convertReturnOperands groups acc st = Ok (newOperands, st').
Proof.
  unfold castsHaveOperand. intros Hall. revert acc st.
  induction Hall as [|vals groups Hvals _ IH]; intros acc st; simpl.
  - by do 2 eexists.
  - destruct (decide (length vals = 1)).
    { destruct vals as [|v ?]; [apply IH|].
      destruct (isaNoneType (getType v)); apply IH. }
    destruct (decide (1 < length vals)) as [Hmany|]; [|apply IH].
    unfold Rewrite.bind, convertMultiValueGroup.
    destruct vals as [|first vals]; [apply IH|].
    destruct (getDefiningOp first) as [definingOp|] eqn:Hdef; [|apply IH].
    destruct (isaUnrealizedConversionCastOp definingOp) eqn:Hcast; [|apply IH].
    destruct (Hvals first definingOp Hmany eq_refl Hdef Hcast) as [operand Hop].
    unfold Rewrite.bind, Rewrite.assertSome. rewrite Hop.
    destruct (dynCastTupleType (getType operand)) as [cts|]; [|apply IH].
    destruct (extractTupleElements_spec operand (enumerate cts) acc st)
      as (elements & st1 & -> & _). apply IH.
Qed.

Lemma matchAndRewriteReturn_inv op groups st u st' :
  matchAndRewriteReturn op groups st = Ok (u, st') ->
  exists newOperands st1,
    convertReturnOperands groups [] st = Ok (newOperands, st1)
    /\ st' = mkRewriterState (S (nextId st1))
               (createdOps st1 ++ [mkOperation (nextId st1) ReturnOp newOperands []])
               (<[opId op := []]> (replacements st1)).
Proof.
  unfold matchAndRewriteReturn, Rewrite.bind. intros H.
  destruct (convertReturnOperands groups [] st) as [[newOperands st1]| |] eqn:Hops;
    try discriminate.
  unfold Rewrite.create, Rewrite.replaceOp in H. simpl in H.
  injection H as _ <-. by exists newOperands, st1.
Qed.

(** *** Legality *)

Lemma argumentsLegal_spec func (indices : list nat) :
  argumentsLegal func indices = true
  <-> Forall (fun i =>
                getArgAttr func i typeBoundIdent = None
                /\ forall type, argumentTypes func !! i = Some type ->
                                isaNoneType type = false)
             indices.
Proof.
  induction indices as [|i indices IH]; simpl.
  - split; [constructor | done].
  - rewrite Forall_cons, <- IH. clear IH.
    destruct (getArgAttr func i typeBoundIdent).
    { split; [done | by intros [[? _] _]]. }
    destruct (argumentTypes func !! i) as [type|].
    + destruct (isaNoneType type) eqn:Hnone.
      * split; [done|]. intros [[_ H] _]. specialize (H type eq_refl). congruence.
      * split; [|by intros [_ ?]]. intros ->. repeat split. by intros ? [= <-].
    + split; [|by intros [_ ?]]. intros ->. repeat split. done.
Qed.

Lemma resultsLegal_spec func (indices : list nat) :
  resultsLegal func indices = true
  <-> Forall (fun i =>
                forall type, resultTypes func !! i = Some type ->
                             isaNoneType type = false)
             indices.
Proof.
  induction indices as [|i indices IH]; simpl.
  - split; [constructor | done].
  - rewrite Forall_cons, <- IH. clear IH.
    destruct (resultTypes func !! i) as [type|].
    + destruct (isaNoneType type) eqn:Hnone.
      * split; [done|]. intros [H _]. specialize (H type eq_refl). congruence.
      * split; [|by intros [_ ?]]. intros ->. split; [|done]. by intros ? [= <-].
    + split; [|by intros [_ ?]]. intros ->. split; done.
Qed.

Lemma Forall_indices {A : Type} (P : A -> Prop) (l : list A) :
  Forall (fun i => forall x, l !! i = Some x -> P x) (seq 0 (length l))
  <-> Forall P l.
Proof.
  rewrite Forall_seq, Forall_lookup. split.
  - intros H i x Hi. apply (H i); [|done].
    apply lookup_lt_Some in Hi. lia.
  - intros H i _ x Hi. by apply (H i).
Qed.

(** The function legality callback, spelled out. *)
Lemma isLegalFuncOp_spec func :
  isLegalFuncOp func = true
  <-> (forall i, i < getNumArguments func ->
                 getArgAttr func i typeBoundIdent = None)
      /\ Forall (fun type => isaNoneType type = false) (argumentTypes func)
      /\ Forall (fun type => isaNoneType type = false) (resultTypes func).
Proof.
  unfold isLegalFuncOp, getNumArguments, getNumResults.
  rewrite <- (Forall_indices _ (argumentTypes func)).
  rewrite <- (Forall_indices _ (resultTypes func)).
  rewrite <- resultsLegal_spec.
  destruct (argumentsLegal func (seq 0 (length (argumentTypes func)))) eqn:Hargs.
  - apply argumentsLegal_spec in Hargs. rewrite Forall_seq in Hargs.
    split.
    + intros ->. split; [|split; [|done]].
      * intros i Hi. apply (Hargs i). lia.
      * apply Forall_seq. intros i Hi. by apply (Hargs i).
    + by intros (_ & _ & ?).
  - split; [done|]. intros (Hattrs & Htypes & _). exfalso.
    assert (argumentsLegal func (seq 0 (length (argumentTypes func))) = true);
      [|congruence].
    apply argumentsLegal_spec, Forall_seq. intros i Hi. split.
    + apply Hattrs. lia.
    + rewrite Forall_seq in Htypes. by apply Htypes.
Qed.

Lemma elem_of_collected_ids (P : Operation -> bool) (ops : list Operation)
    (s0 : gset nat) (id : nat) :
  id ∈ foldl (fun (s : gset nat) op => if P op then {[opId op]} ∪ s else s) s0 ops
  <-> id ∈ s0 \/ exists op, op ∈ ops /\ P op = true /\ opId op = id.
Proof.
  revert s0. induction ops as [|op ops IH]; intros s0; simpl.
  - split; [by left|]. intros [?|(op & Hin & _)]; [done|].
    by apply not_elem_of_nil in Hin.
  - rewrite IH. split.
    + intros [Hin|(op' & Hin & HP & Hid)].
      * destruct (P op) eqn:HP; [|by left].
        apply elem_of_union in Hin as [Hin|Hin]; [|by left].
        apply elem_of_singleton in Hin. right. exists op.
        split; [apply list_elem_of_here | done].
      * right. exists op'. split; [by apply list_elem_of_further | done].
    + intros [Hin|(op' & Hin & HP & Hid)].
      * left. destruct (P op); [apply elem_of_union; by right | done].
      * apply elem_of_cons in Hin as [->|Hin].
        -- left. rewrite HP. apply elem_of_union. left.
           by apply elem_of_singleton.
        -- right. by exists op'.
Qed.

(** [opsInOriginalProgram] holds exactly the identities of the calls and
    returns of the body. *)
Lemma elem_of_opsInOriginalProgram func (id : nat) :
  id ∈ opsInOriginalProgram func
  <-> exists op, op ∈ body func /\ (isCallOp op || isReturnOp op) = true
                 /\ opId op = id.
Proof.
  unfold opsInOriginalProgram. rewrite !elem_of_collected_ids. split.
  - intros [[Hin|(op & Hin & HP & Hid)]|(op & Hin & HP & Hid)].
    + by apply not_elem_of_empty in Hin.
    + exists op. by rewrite HP.
    + exists op. rewrite HP. by rewrite orb_true_r.
  - intros (op & Hin & HP & Hid). apply orb_true_iff in HP as [HP|HP].
    + left. right. by exists op.
    + right. by exists op.
Qed.

Lemma original_call_or_return_illegal func op :
  op ∈ body func ->
  (isCallOp op || isReturnOp op) = true ->
  opLegality (opsInOriginalProgram func) op = Illegal.
Proof.
  intros Hin Hkind.
  assert (opId op ∈ opsInOriginalProgram func) as Hid
    by (apply elem_of_opsInOriginalProgram; by exists op).
  unfold opLegality, isCallOp, isReturnOp in *.
  destruct (opName op); try discriminate; by rewrite bool_decide_eq_true_2.
Qed.

(** *** Calls and returns that need no adjustment *)








(** *** The type-bound table *)

Lemma collectTypeBounds_other_name (func : FuncOp) (indices : list nat)
    (typeBoundMap : TypeBoundMap) (name : string) (i : nat) :
  name <> symName func ->
  collectTypeBounds func indices typeBoundMap !! (name, i) = typeBoundMap !! (name, i).
Proof.
  intros Hne. revert typeBoundMap.
  induction indices as [|j indices IH]; intros typeBoundMap; simpl; [done|].
  destruct (getArgAttrOfTypeTypeAttr func j typeBoundIdent); [|apply IH].
  rewrite IH. apply lookup_insert_ne. congruence.
Qed.

Lemma collectTypeBounds_other_index (func : FuncOp) (indices : list nat)
    (typeBoundMap : TypeBoundMap) (name : string) (i : nat) :
  i ∉ indices ->
  collectTypeBounds func indices typeBoundMap !! (name, i) = typeBoundMap !! (name, i).
Proof.
  revert typeBoundMap.
  induction indices as [|j indices IH]; intros typeBoundMap Hnotin; simpl; [done|].
  apply not_elem_of_cons in Hnotin as [Hne Hnotin].
  destruct (getArgAttrOfTypeTypeAttr func j typeBoundIdent); [|by apply IH].
  rewrite IH by done. apply lookup_insert_ne. congruence.
Qed.

Lemma collectTypeBounds_lookup (func : FuncOp) (indices : list nat)
    (typeBoundMap : TypeBoundMap) (i : nat) (value : Ty) :
  i ∈ indices ->
  getArgAttrOfTypeTypeAttr func i typeBoundIdent = Some value ->
  collectTypeBounds func indices typeBoundMap !! (symName func, i) = Some value.
Proof.
  revert typeBoundMap.
  induction indices as [|j indices IH]; intros typeBoundMap Hin Hattr; simpl.
  - by apply not_elem_of_nil in Hin.
  - destruct (decide (i ∈ indices)) as [Hrest|Hrest].
    { destruct (getArgAttrOfTypeTypeAttr func j typeBoundIdent); by apply IH. }
    apply elem_of_cons in Hin as [<-|Hin]; [|done].
    rewrite Hattr, collectTypeBounds_other_index by done.
    apply lookup_insert_eq.
Qed.

Lemma buildTypeBoundMap_other_names (funcs : list FuncOp)
    (typeBoundMap : TypeBoundMap) (name : string) (i : nat) :
  Forall (fun func => symName func <> name) funcs ->
  foldl (fun m func => collectTypeBounds func (seq 0 (getNumArguments func)) m)
        typeBoundMap funcs !! (name, i)
    = typeBoundMap !! (name, i).
Proof.
  intros Hall. revert typeBoundMap.
  induction Hall as [|func funcs Hne _ IH]; intros typeBoundMap; simpl; [done|].
  rewrite IH. by apply collectTypeBounds_other_name.
Qed.

(** With unique function names, the table holds the bound of every
    annotated argument of every function of the module. *)
Lemma buildTypeBoundMap_lookup (module : list FuncOp) (func : FuncOp)
    (i : nat) (value : Ty) :
  NoDup (map symName module) ->
  func ∈ module ->
  i < getNumArguments func ->
  getArgAttrOfTypeTypeAttr func i typeBoundIdent = Some value ->
  buildTypeBoundMap module !! (symName func, i) = Some value.
Proof.
  unfold buildTypeBoundMap. generalize (∅ : TypeBoundMap).
  induction module as [|head module IH]; intros typeBoundMap Hnodup Hin Hi Hattr.
  - by apply not_elem_of_nil in Hin.
  - simpl in Hnodup. apply NoDup_cons in Hnodup as [Hfresh Hnodup].
    simpl. apply elem_of_cons in Hin as [->|Hin]; [|by apply IH].
    rewrite buildTypeBoundMap_other_names.
    + apply collectTypeBounds_lookup; [|done]. apply elem_of_seq. lia.
    + apply Forall_forall. intros other Hother Heq. apply Hfresh.
      rewrite <- Heq. apply list_elem_of_In, in_map.
      by apply list_elem_of_In.
Qed.

(** *** The driver *)

Section DriverProperties.

Variable remappedOperands : Operation -> list Value.
Variable remappedOperandGroups : Operation -> list (list Value).

Local Abbreviation patternOf := (patternFor remappedOperands remappedOperandGroups).
Local Abbreviation legalizeOp :=
  (legalizeWithPattern remappedOperands remappedOperandGroups).
Local Abbreviation convertOps :=
  (convertOperations remappedOperands remappedOperandGroups).
Local Abbreviation adjust :=
  (adjustCallingConventions remappedOperands remappedOperandGroups).
Local Abbreviation adjustAll :=
  (adjustFunctions remappedOperands remappedOperandGroups).
Local Abbreviation ConvertedOp :=
  (Converted remappedOperands remappedOperandGroups).

Lemma legalizeWithPattern_inv typeBoundMap original op st created st' :
  legalizeOp typeBoundMap original op st = Ok (created, st') ->
  exists pattern u st1,
    patternOf typeBoundMap op = Some pattern
    /\ pattern (mkRewriterState (nextId st) [] (replacements st)) = Ok (u, st1)
    /\ created = createdOps st1
    /\ Forall (fun new => opLegality original new = Legal) created.
Proof.
  unfold legalizeWithPattern. intros H.
  destruct (patternOf typeBoundMap op) as [pattern|]; [|discriminate].
  destruct (pattern _) as [[u st1]| |] eqn:Hrun; try discriminate.
  destruct (forallb (isLegalOp original) (createdOps st1)) eqn:Hlegal;
    [|discriminate].
  injection H as <- <-. exists pattern, u, st1. repeat split; try done.
  apply Forall_forall. intros new Hin.
  apply list_elem_of_In in Hin.
  apply (proj1 (forallb_forall _ _) Hlegal) in Hin.
  unfold isLegalOp in Hin. by destruct (opLegality original new).
Qed.

Lemma convertOperations_spec typeBoundMap original (ops : list Operation)
    acc st newBody st' :
  convertOps typeBoundMap original ops acc st = Ok (newBody, st') ->
  exists pieces,
    newBody = acc ++ concat pieces
    /\ Forall2 (ConvertedOp typeBoundMap original) ops pieces.
Proof.
  revert acc st.
  induction ops as [|op ops IH]; intros acc st H; simpl in H.
  - injection H as <- <-. exists []. simpl. by rewrite app_nil_r.
  - assert (Hkeep : forall st0,
               opLegality original op <> Illegal ->
               convertOps typeBoundMap original ops (acc ++ [op]) st0
                 = Ok (newBody, st') ->
               exists pieces,
                 newBody = acc ++ concat pieces
                 /\ Forall2 (ConvertedOp typeBoundMap original) (op :: ops) pieces).
    { intros st0 Hlegal H0. apply IH in H0 as (pieces & -> & Hall).
      exists ([op] :: pieces). simpl. rewrite <- app_assoc.
      split; [done|]. constructor; [by constructor | done]. }
    assert (Hrewrite :
               opLegality original op <> Legal ->
               match legalizeOp typeBoundMap original op st with
               | Ok (created, st1) =>
                   convertOps typeBoundMap original ops (acc ++ created) st1
               | Failure diag =>
                   match opLegality original op with
                   | Illegal => Failure diag
                   | _ => convertOps typeBoundMap original ops (acc ++ [op]) st
                   end
               | AssertionFailure => AssertionFailure
               end = Ok (newBody, st') ->
               exists pieces,
                 newBody = acc ++ concat pieces
                 /\ Forall2 (ConvertedOp typeBoundMap original) (op :: ops) pieces).
    { intros Hnot H0.
      destruct (legalizeOp typeBoundMap original op st)
        as [[created st1]|diag|] eqn:Hleg; [| |discriminate].
      - apply legalizeWithPattern_inv in Hleg
          as (pattern & u & st2 & Hpat & Hrun & -> & Hlegal).
        apply IH in H0 as (pieces & -> & Hall).
        exists (createdOps st2 :: pieces). simpl. rewrite <- app_assoc.
        split; [done|]. constructor; [|done].
        by eapply (converted_rewritten _ _ _ _ _ pattern
                     (mkRewriterState (nextId st) [] (replacements st)) u st2).
      - destruct (opLegality original op) eqn:Hl; try discriminate; try done.
        eapply Hkeep; [|exact H0]. done. }
    destruct (opLegality original op) eqn:Hl.
    + eapply Hkeep; [|exact H]. done.
    + by apply Hrewrite.
    + by apply Hrewrite.
Qed.

Lemma legalizeFuncOp_legal func st func' :
  legalizeFuncOp func st = Ok func' -> isLegalFuncOp func' = true.
Proof.
  unfold legalizeFuncOp. intros H.
  destruct (isLegalFuncOp func) eqn:Hlegal.
  - by injection H as <-.
  - destruct (matchAndRewriteFunc func st) as [[func1 st1]| |]; try discriminate.
    destruct (isLegalFuncOp func1) eqn:Hlegal1; [|discriminate].
    by injection H as <-.
Qed.

Lemma adjustCallingConventions_inv func typeBoundMap func' :
  adjust func typeBoundMap = Ok func' ->
  exists func1 newBody st',
    legalizeFuncOp func (initialRewriter func) = Ok func1
    /\ convertOps typeBoundMap (opsInOriginalProgram func) (body func) []
         (initialRewriter func) = Ok (newBody, st')
    /\ func' = setBody func1 newBody.
Proof.
  unfold adjustCallingConventions. intros H.
  destruct (legalizeFuncOp func (initialRewriter func)) as [func1| |];
    try discriminate.
  destruct (convertOps _ _ _ _ _) as [[newBody st']| |]; try discriminate.
  injection H as <-. by exists func1, newBody, st'.
Qed.

(** A function with an annotated argument is illegal, and a failing
    signature pattern fails its conversion. *)
Lemma adjustCallingConventions_rejects func typeBoundMap i attr diag :
  i < getNumArguments func ->
  getArgAttr func i typeBoundIdent = Some attr ->
  (forall st, matchAndRewriteFunc func st = Failure diag) ->
  adjust func typeBoundMap = Failure diag.
Proof.
  intros Hi Hattr Hfail. unfold adjustCallingConventions, legalizeFuncOp.
  destruct (isLegalFuncOp func) eqn:Hlegal.
  - apply isLegalFuncOp_spec in Hlegal as (Hnone & _).
    rewrite (Hnone i Hi) in Hattr. discriminate.
  - by rewrite Hfail.
Qed.

Lemma adjustFunctions_succeeded typeBoundMap (funcs converted module' : list FuncOp) :
  adjustAll typeBoundMap funcs converted = PassSucceeded module' ->
  exists rewritten,
    module' = converted ++ rewritten
    /\ Forall2 (fun func func' => adjust func typeBoundMap = Ok func')
               funcs rewritten.
Proof.
  revert converted.
  induction funcs as [|func funcs IH]; intros converted H; simpl in H.
  - injection H as <-. exists []. by rewrite app_nil_r.
  - destruct (adjust func typeBoundMap) as [func'| |] eqn:Hadj; try discriminate.
    apply IH in H as (rewritten & -> & Hall).
    exists (func' :: rewritten). rewrite <- app_assoc. split; [done|].
    by constructor.
Qed.

(** When the conversion of one function fails, the pass does not
    succeed, and if it reports failure that function is found unchanged
    at its position. *)
Lemma adjustFunctions_failing typeBoundMap (before after converted : list FuncOp)
    func diag :
  adjust func typeBoundMap = Failure diag ->
  match adjustAll typeBoundMap (before ++ func :: after) converted with
  | PassSucceeded _ => False
  | PassFailed module' _ =>
      module' !! (length converted + length before) = Some func
  | PassAborted => True
  end.
Proof.
  intros Hfail. revert converted.
  induction before as [|head before IH]; intros converted; simpl.
  - rewrite Hfail. rewrite Nat.add_0_r.
    by rewrite lookup_app_r, Nat.sub_diag by lia.
  - destruct (adjust head typeBoundMap) as [head'| |] eqn:Hhead; [| |done].
    + specialize (IH (converted ++ [head'])).
      destruct (adjustAll _ _ _); [done| |done].
      rewrite length_app in IH. simpl in IH.
      by replace (length converted + S (length before))
        with (length converted + 1 + length before) by lia.
    + rewrite lookup_app_r by lia.
      replace (length converted + S (length before) - length converted)
        with (S (length before)) by lia.
      simpl. by rewrite lookup_app_r, Nat.sub_diag by lia.
Qed.

End DriverProperties.


Lemma Forall2_elem_l {A B : Type} (P : A -> B -> Prop) (l : list A) (k : list B) (x : A) :
  Forall2 P l k -> x ∈ l -> exists y, y ∈ k /\ P x y.
Proof.
  intros Hall Hin. apply list_elem_of_lookup in Hin as [i Hi].
  destruct (Forall2_lookup_l _ _ _ _ _ Hall Hi) as (y & Hy & HP).
  exists y. split; [|done]. apply list_elem_of_lookup. by exists i.
Qed.

Lemma Forall2_elem_r {A B : Type} (P : A -> B -> Prop) (l : list A) (k : list B) (y : B) :
  Forall2 P l k -> y ∈ k -> exists x, x ∈ l /\ P x y.
Proof.
  intros Hall Hin. apply list_elem_of_lookup in Hin as [i Hi].
  destruct (Forall2_lookup_r _ _ _ _ _ Hall Hi) as (x & Hx & HP).
  exists x. split; [|done]. apply list_elem_of_lookup. by exists i.
Qed.

Lemma argumentsLegal_setBody func newBody (indices : list nat) :
  argumentsLegal (setBody func newBody) indices = argumentsLegal func indices.
Proof. induction indices as [|i indices IH]; simpl; [done | by rewrite IH]. Qed.

Lemma resultsLegal_setBody func newBody (indices : list nat) :
  resultsLegal (setBody func newBody) indices = resultsLegal func indices.
Proof. induction indices as [|i indices IH]; simpl; [done | by rewrite IH]. Qed.

Lemma isLegalFuncOp_setBody func newBody :
  isLegalFuncOp (setBody func newBody) = isLegalFuncOp func.
Proof.
  unfold isLegalFuncOp. by rewrite argumentsLegal_setBody, resultsLegal_setBody.
Qed.


(** ** The claims *)

(** C6. When the signature pattern succeeds, the new argument types are,
    in order, nothing for a none-typed argument, the bound for a non-value
    tensor argument with a value-tensor bound, and the declared type for
    any other argument; the new result types are, in order, nothing for a
    none-typed result, the contained types for a tuple-typed result, and
    the declared type for any other result.  Success means that every
    non-value tensor argument had a value-tensor bound. *)
Theorem signature_rewrite_maps_types (func func' : FuncOp) (st st' : RewriterState) :
  matchAndRewriteFunc func st = Ok (func', st') ->
  argumentTypes func'
    = concat (map (fun p => signatureArgumentTypes func p.1 p.2)
                  (enumerate (argumentTypes func)))
  /\ resultTypes func' = concat (map signatureResultTypes (resultTypes func))
  /\ forallb (fun p => argumentAccepted func p.1 p.2)
             (enumerate (argumentTypes func)) = true.
Proof.
  unfold matchAndRewriteFunc, Rewrite.bind, Rewrite.ret. intros H.
  destruct (convertArguments _ _ _ st) as [[conversion st1]| |] eqn:Hargs;
    try discriminate.
  injection H as <- _.
  destruct (clearTypeBounds_types
              (setType (applySignatureConversion func conversion)
                 (convertedTypes conversion)
                 (convertResultTypes (resultTypes func) [])))
    as (-> & -> & _).
  simpl. apply convertArguments_spec in Hargs as [-> ->].
  by rewrite convertResultTypes_spec.
Qed.

Lemma signature_rewrite_maps_types_witness :
  match matchAndRewriteFunc basicFunc emptyRewriter with
  | Ok (func', _) =>
      argumentTypes func' = [vtensor; intType]
      /\ resultTypes func' = [tensor; tensor; intType]
  | _ => False
  end.
Proof.
  destruct (matchAndRewriteFunc basicFunc emptyRewriter) as [[func' st']| |] eqn:E.
  - destruct (signature_rewrite_maps_types _ _ _ _ E) as (-> & -> & _).
    split; reflexivity.
  - vm_compute in E. discriminate.
  - vm_compute in E. discriminate.
Defined.

(** C9, as the code has it.  The signature pattern never succeeds on a
    function with a non-value tensor argument that carries no
    [torch.type_bound] annotation at all, so the fallback to the declared
    type is never taken; such a function gets through legalization only
    when it is already legal, and then as it is. *)
Theorem unannotated_tensor_argument_never_rewritten
    (func : FuncOp) (i info : nat) :
  argumentTypes func !! i = Some (NonValueTensorType info) ->
  getArgAttr func i typeBoundIdent = None ->
  (forall st func' st', matchAndRewriteFunc func st <> Ok (func', st'))
  /\ (forall st func',
        legalizeFuncOp func st = Ok func' ->
        func' = func /\ isLegalFuncOp func = true).
Proof.
  intros Harg Hattr.
  assert (Hnever : forall st func' st',
             matchAndRewriteFunc func st <> Ok (func', st')).
  { intros st func' st' H.
    unfold matchAndRewriteFunc, Rewrite.bind in H.
    destruct (convertArguments _ _ _ st) as [[conversion st1]| |] eqn:Hargs;
      try discriminate.
    apply convertArguments_spec in Hargs as [_ Hall].
    apply enumerate_lookup, list_elem_of_In in Harg.
    apply (proj1 (forallb_forall _ _) Hall) in Harg.
    unfold argumentAccepted, getArgAttrOfTypeTypeAttr in Harg. simpl in Harg.
    by rewrite Hattr in Harg. }
  split; [done|].
  intros st func' H. unfold legalizeFuncOp in H.
  destruct (isLegalFuncOp func); [by injection H as <-|].
  destruct (matchAndRewriteFunc func st) as [[func1 st1]| |] eqn:Hfunc;
    try discriminate.
  by apply Hnever in Hfunc.
Qed.

Lemma unannotated_tensor_argument_never_rewritten_witness :
  matchAndRewriteFunc unboundFunc emptyRewriter <> Ok (unboundFunc, emptyRewriter).
Proof.
  apply (unannotated_tensor_argument_never_rewritten unboundFunc 1 0);
    vm_compute; reflexivity.
Defined.

(** C9 as stated fails: the function [@no_type_bound], whose only
    argument is an unannotated non-value tensor, is legal, so the pass
    succeeds on it and the argument passes through as declared; and where
    the signature pattern does run on such an argument, [isa<>] is applied
    to the null type and the outcome is not the match failure. *)
Lemma unannotated_tensor_argument_passes_through :
  argumentTypes noTypeBoundFunc !! 0 = Some tensor
  /\ getArgAttr noTypeBoundFunc 0 typeBoundIdent = None
  /\ (argumentTypes <$> onlyFunction
        (runOnOperation operandsAsTheyAre operandsAsSingletons [noTypeBoundFunc]))
       = Some [tensor]
  /\ matchAndRewriteFunc unboundFunc emptyRewriter
       <> Failure (Some unimplementedBound).
Proof.
  split; [reflexivity|]. split; [vm_compute; reflexivity|].
  split; [vm_compute; reflexivity|].
  vm_compute. discriminate.
Qed.

(** C5. In a rewritten call the operands of the new call are obtained
    from the (remapped) operands in order: a none-typed operand is
    dropped; otherwise, when the table has a value-tensor bound for the
    callee and the operand's position, the operand is wrapped in a copy to
    that bound; otherwise, when the table has no entry, the operand is
    passed unchanged. *)
Theorem call_operands_adjusted
    (typeBoundMap : TypeBoundMap) (call : Operation) (operands : list Value)
    (st st' : RewriterState) :
  matchAndRewriteCall typeBoundMap call operands st = Ok (tt, st') ->
  exists newCall,
    newCall ∈ createdOps st'
    /\ opName newCall = CallOp (getCallee call)
    /\ OperandsAdjusted typeBoundMap (getCallee call) (enumerate operands)
         (opOperands newCall).
Proof.
  intros H.
  apply matchAndRewriteCall_inv in H
    as (convertedResults & newOperands & st1 & newResults & st3
        & _ & Hops & Hres & ->).
  apply convertOperands_spec in Hops as (tail & -> & Hadj & _).
  apply reconstructResults_spec in Hres as (_ & _ & _ & _ & ([extra Hext] & _)).
  exists (mkOperation (nextId st1) (CallOp (getCallee call)) ([] ++ tail)
            convertedResults).
  split; [|split; [reflexivity | exact Hadj]].
  simpl in *. rewrite Hext.
  apply elem_of_app. left. apply elem_of_app. right. apply list_elem_of_here.
Qed.

Lemma call_operands_adjusted_witness :
  match matchAndRewriteCall mixedTypeBounds mixedCall mixedOperands emptyRewriter with
  | Ok (_, st') =>
      exists newCall,
        newCall ∈ createdOps st'
        /\ opName newCall = CallOp "h"
        /\ OperandsAdjusted mixedTypeBounds "h" (enumerate mixedOperands)
             (opOperands newCall)
  | _ => False
  end.
Proof.
  destruct (matchAndRewriteCall mixedTypeBounds mixedCall mixedOperands
              emptyRewriter) as [[[] st']| |] eqn:E.
  - exact (call_operands_adjusted _ _ _ _ _ E).
  - vm_compute in E. discriminate.
  - vm_compute in E. discriminate.
Defined.

(** C4. A rewritten call is replaced by exactly as many values as the
    original call declares results, position by position, however many
    results the new call has (its result types are the converted ones);
    at the position of a none-typed original result the replacement is
    the result of a freshly created constant-none operation. *)
Theorem call_replacements_match_original_results
    (typeBoundMap : TypeBoundMap) (call : Operation) (operands : list Value)
    (st st' : RewriterState) :
  matchAndRewriteCall typeBoundMap call operands st = Ok (tt, st') ->
  exists newResults,
    replacements st' !! opId call = Some newResults
    /\ length newResults = length (opResultTypes call)
    /\ (forall i type,
          opResultTypes call !! i = Some type -> isaNoneType type = true ->
          exists id,
            nextId st <= id
            /\ newResults !! i
                 = Some (asValue (mkOperation id ConstantNoneOp [] [type])))
    /\ (exists newCall,
          newCall ∈ createdOps st'
          /\ opName newCall = CallOp (getCallee call)
          /\ convertTypes (opResultTypes call) [] = Some (opResultTypes newCall)).
Proof.
  intros H.
  apply matchAndRewriteCall_inv in H
    as (convertedResults & newOperands & st1 & newResults & st3
        & Hconv & Hops & Hres & ->).
  apply convertOperands_spec in Hops as (opsTail & -> & _ & (_ & Hid1 & _)).
  apply reconstructResults_spec in Hres
    as (tail & -> & Hlen & Hnones & ([extra Hext] & _)).
  exists tail. simpl. split; [apply lookup_insert_eq|]. split; [done|]. split.
  - intros i type Hi Hn. destruct (Hnones i type Hi Hn) as (id & Hid & Hl).
    simpl in Hid. exists id. split; [lia | done].
  - exists (mkOperation (nextId st1) (CallOp (getCallee call)) ([] ++ opsTail)
              convertedResults).
    split; [|split; [reflexivity | exact Hconv]].
    simpl in Hext. rewrite Hext.
    apply elem_of_app. left. apply elem_of_app. right. apply list_elem_of_here.
Qed.

Lemma call_replacements_match_original_results_witness :
  match matchAndRewriteCall mixedTypeBounds mixedCall mixedOperands emptyRewriter with
  | Ok (_, st') =>
      exists newResults,
        replacements st' !! 9 = Some newResults /\ length newResults = 2
  | _ => False
  end.
Proof.
  destruct (matchAndRewriteCall mixedTypeBounds mixedCall mixedOperands
              emptyRewriter) as [[[] st']| |] eqn:E.
  - destruct (call_replacements_match_original_results _ _ _ _ _ E)
      as (newResults & Hrep & Hlen & _).
    exists newResults. split; [exact Hrep | exact Hlen].
  - vm_compute in E. discriminate.
  - vm_compute in E. discriminate.
Defined.

(** C1, at a call whose original results are a tuple of two tensors
    followed by a tensor: the synthesized tuple construction is given all
    three results of the new call and the cursor stays at 0, so the tensor
    result is replaced by result 0 of the new call; walking with a cursor
    as the claim words it gives the tuple results 0 and 1, and the tensor
    result 2. *)
Theorem tuple_reconstruction_takes_all_results :
  map resultSource
    <$> replacementsFor tupleAndTensorCall
          (matchAndRewriteCall ∅ tupleAndTensorCall [] emptyRewriter)
    = Some [FromTupleConstruct [FromNewCall 0; FromNewCall 1; FromNewCall 2];
            FromNewCall 0]
  /\ specResultSources (opResultTypes tupleAndTensorCall) 0
       = [FromTupleConstruct [FromNewCall 0; FromNewCall 1]; FromNewCall 2].
Proof. split; vm_compute; reflexivity. Qed.

(** C7. The operands of the new return are the concatenation, in operand
    order, of what each value group contributes: nothing for an empty
    group; nothing for a single none-typed value and the value itself for
    any other single value; for a multi-value group whose first value is
    produced by a placeholder cast over a tuple-typed value, one indexed
    extraction from that tuple per contained type, with indices 0, 1, ...
    in order; any other multi-value group as it is. *)
Theorem return_operands_adjusted
    (op : Operation) (groups : list (list Value)) (st st' : RewriterState) :
  matchAndRewriteReturn op groups st = Ok (tt, st') ->
  exists newReturn,
    newReturn ∈ createdOps st'
    /\ opName newReturn = ReturnOp
    /\ ReturnOperandsAdjusted groups (opOperands newReturn)
    /\ replacements st' !! opId op = Some [].
Proof.
  intros H.
  apply matchAndRewriteReturn_inv in H as (newOperands & st1 & Hops & ->).
  apply convertReturnOperands_spec in Hops as (tail & -> & Hadj & _).
  exists (mkOperation (nextId st1) ReturnOp ([] ++ tail) []). simpl.
  split; [apply elem_of_app; right; apply list_elem_of_here|].
  split; [done|]. split; [done | apply lookup_insert_eq].
Qed.

Lemma return_operands_adjusted_witness :
  match matchAndRewriteReturn returnOp returnGroups emptyRewriter with
  | Ok (_, st') =>
      exists newReturn,
        newReturn ∈ createdOps st'
        /\ opName newReturn = ReturnOp
        /\ ReturnOperandsAdjusted returnGroups (opOperands newReturn)
        /\ replacements st' !! 8 = Some []
  | _ => False
  end.
Proof.
  destruct (matchAndRewriteReturn returnOp returnGroups emptyRewriter)
    as [[[] st']| |] eqn:E.
  - exact (return_operands_adjusted _ _ _ _ E).
  - vm_compute in E. discriminate.
  - vm_compute in E. discriminate.
Defined.

(** C8. An indirect call is illegal for every conversion target the
    driver builds and no pattern applies to it, so a module in which some
    function contains one never comes out of the pass as a success. *)
Theorem indirect_call_fails_the_pass
    (remappedOperands : Operation -> list Value)
    (remappedOperandGroups : Operation -> list (list Value))
    (module : list FuncOp) (func : FuncOp) (op : Operation) :
  func ∈ module ->
  op ∈ body func ->
  opName op = CallIndirectOp ->
  (forall original, opLegality original op = Illegal)
  /\ (forall typeBoundMap,
        patternFor remappedOperands remappedOperandGroups typeBoundMap op = None)
  /\ (forall module',
        runOnOperation remappedOperands remappedOperandGroups module
          <> PassSucceeded module').
Proof.
  intros Hfunc Hop Hname.
  assert (Hillegal : forall original, opLegality original op = Illegal)
    by (intros original; unfold opLegality; by rewrite Hname).
  assert (Hnone : forall typeBoundMap,
             patternFor remappedOperands remappedOperandGroups typeBoundMap op
               = None)
    by (intros typeBoundMap; unfold patternFor; by rewrite Hname).
  split; [done|]. split; [done|].
  intros module' Hrun. unfold runOnOperation in Hrun.
  apply adjustFunctions_succeeded in Hrun as (rewritten & _ & Hall).
  destruct (Forall2_elem_l _ _ _ _ Hall Hfunc) as (func' & _ & Hadj).
  apply adjustCallingConventions_inv in Hadj
    as (func1 & newBody & st' & _ & Hconv & _).
  apply convertOperations_spec in Hconv as (pieces & _ & Hpieces).
  destruct (Forall2_elem_l _ _ _ _ Hpieces Hop) as (piece & _ & Hconverted).
  inversion Hconverted as [Hlegal|pattern st u st1 _ Hpattern]; subst.
  - by apply Hlegal.
  - by rewrite Hnone in Hpattern.
Qed.

Lemma indirect_call_fails_the_pass_witness :
  runOnOperation operandsAsTheyAre operandsAsSingletons [indirectFunc]
    <> PassSucceeded [indirectFunc].
Proof.
  apply (indirect_call_fails_the_pass operandsAsTheyAre operandsAsSingletons
           [indirectFunc] indirectFunc indirectCallOp).
  - apply list_elem_of_here.
  - apply list_elem_of_here.
  - reflexivity.
Defined.



(** C2, as the code has it.  When a non-value tensor argument of a
    function carries a [torch.type_bound] that is a type but not a value
    tensor type, and every non-value tensor argument before it carries a
    type-attribute bound, the signature pattern fails with the
    unsupported-bound diagnostic; the call pattern fails with the same
    diagnostic on every call to the function that passes an operand which
    is not none-typed at that position (the table being the one collected
    from a module with unique function names); the conversion of the
    function fails with that diagnostic; the pass does not succeed, and
    when it reports failure the function is found as it was. *)
Theorem non_value_bound_rejected
    (remappedOperands : Operation -> list Value)
    (remappedOperandGroups : Operation -> list (list Value))
    (module : list FuncOp) (k : nat) (func : FuncOp) (i info : nat) (bound : Ty) :
  NoDup (map symName module) ->
  module !! k = Some func ->
  argumentTypes func !! i = Some (NonValueTensorType info) ->
  getArgAttr func i typeBoundIdent = Some (TypeAttr bound) ->
  isaValueTensorType bound = false ->
  (forall j info',
      j < i -> argumentTypes func !! j = Some (NonValueTensorType info') ->
      is_Some (getArgAttrOfTypeTypeAttr func j typeBoundIdent)) ->
  (forall st, matchAndRewriteFunc func st = Failure (Some unimplementedBound))
  /\ (forall call operands value st,
        getCallee call = symName func ->
        operands !! i = Some value ->
        isaNoneType (getType value) = false ->
        matchAndRewriteCall (buildTypeBoundMap module) call operands st
          = Failure (Some unimplementedBound))
  /\ (forall typeBoundMap,
        adjustCallingConventions remappedOperands remappedOperandGroups func
          typeBoundMap = Failure (Some unimplementedBound))
  /\ match runOnOperation remappedOperands remappedOperandGroups module with
     | PassSucceeded _ => False
     | PassFailed module' _ => module' !! k = Some func
     | PassAborted => True
     end.
Proof.
  intros Hnodup Hfunc Harg Hattr Hvt Hearlier.
  assert (Hbound : getArgAttrOfTypeTypeAttr func i typeBoundIdent = Some bound)
    by (unfold getArgAttrOfTypeTypeAttr; by rewrite Hattr).
  assert (Hi : i < getNumArguments func) by (by apply lookup_lt_Some in Harg).
  assert (Hsig : forall st,
             matchAndRewriteFunc func st = Failure (Some unimplementedBound)).
  { intros st. unfold matchAndRewriteFunc, Rewrite.bind, enumerate.
    by rewrite (convertArguments_rejects_bound func _ 0 i info bound). }
  assert (Hadj : forall typeBoundMap,
             adjustCallingConventions remappedOperands remappedOperandGroups
               func typeBoundMap = Failure (Some unimplementedBound))
    by (intros typeBoundMap; by eapply adjustCallingConventions_rejects).
  split; [done|]. split; [|split; [done|]].
  - intros call operands value st Hcallee Hoperand Hnone.
    destruct (matchAndRewriteCall_outcome (buildTypeBoundMap module) call
                operands st) as [[st' Hok]|Hfail]; [|done].
    exfalso. apply matchAndRewriteCall_inv in Hok
      as (convertedResults & newOperands & st1 & newResults & st3
          & _ & Hops & _).
    rewrite (convertOperands_rejects _ _ _ _ _ i value bound) in Hops;
      [done | by apply enumerate_lookup | done | | done].
    rewrite Hcallee. apply buildTypeBoundMap_lookup; try done.
    apply list_elem_of_lookup. by exists k.
  - unfold runOnOperation.
    pose proof (adjustFunctions_failing remappedOperands remappedOperandGroups
                  (buildTypeBoundMap module)
                  (take k module) (drop (S k) module) [] func _ (Hadj _)) as Hpass.
    rewrite (take_drop_middle module k func Hfunc) in Hpass.
    destruct (adjustFunctions _ _ _ _ _) as [|module' diag|]; [done| |done].
    simpl in Hpass.
    rewrite length_take_le in Hpass; [done|].
    apply lookup_lt_Some in Hfunc. lia.
Qed.

Lemma non_value_bound_rejected_witness :
  matchAndRewriteFunc rejectedFunc emptyRewriter = Failure (Some unimplementedBound)
  /\ match runOnOperation operandsAsTheyAre operandsAsSingletons [rejectedFunc] with
     | PassFailed module' _ => module' !! 0 = Some rejectedFunc
     | _ => False
     end.
Proof.
  assert (Hnodup : NoDup (map symName [rejectedFunc]))
    by (apply NoDup_singleton).
  assert (Hearlier : forall j info',
             j < 0 ->
             argumentTypes rejectedFunc !! j = Some (NonValueTensorType info') ->
             is_Some (getArgAttrOfTypeTypeAttr rejectedFunc j typeBoundIdent))
    by (intros j info' Hj; lia).
  destruct (non_value_bound_rejected operandsAsTheyAre operandsAsSingletons
              [rejectedFunc] 0 rejectedFunc 0 0 tensor Hnodup eq_refl eq_refl
              eq_refl eq_refl Hearlier) as (Hsig & _ & _ & Hpass).
  split; [apply Hsig|].
  destruct (runOnOperation operandsAsTheyAre operandsAsSingletons [rejectedFunc])
    as [module'|module' diag|] eqn:E.
  - destruct Hpass.
  - exact Hpass.
  - vm_compute in E. discriminate.
Defined.

(** C2 as stated fails: with the same kind of bound on a value tensor
    argument the signature pattern succeeds, the pass succeeds on the
    module made of that function, and the annotation is stripped. *)
Lemma non_value_bound_on_value_tensor_accepted :
  getArgAttr aliasFunc 0 typeBoundIdent = Some (TypeAttr tensor)
  /\ isaValueTensorType tensor = false
  /\ (exists func',
        matchAndRewriteFunc aliasFunc emptyRewriter = Ok (func', emptyRewriter))
  /\ (exists func',
        runOnOperation operandsAsTheyAre operandsAsSingletons [aliasFunc]
          = PassSucceeded [func']
        /\ getArgAttr func' 0 typeBoundIdent = None).
Proof.
  split; [vm_compute; reflexivity|]. split; [reflexivity|]. split.
  - eexists. vm_compute. reflexivity.
  - eexists. split; vm_compute; reflexivity.
Qed.

(** C3, as the code has it.  For a function without tuple-typed results:
    it is legal exactly when no argument carries a [torch.type_bound]
    annotation and no argument and no result is none-typed, whatever
    tuple-typed arguments it has; it is skipped, that is legalized to
    itself, exactly when it is legal; and every function that comes out
    of a successful run of the pass is legal, so a second run skips it. *)
Theorem legal_functions_are_skipped (func : FuncOp) :
  Forall (fun type => isaTupleType type = false) (resultTypes func) ->
  (isLegalFuncOp func = true
   <-> (forall i, i < getNumArguments func ->
                  getArgAttr func i typeBoundIdent = None)
       /\ Forall (fun type => isaNoneType type = false) (argumentTypes func)
       /\ Forall (fun type => isaNoneType type = false) (resultTypes func))
  /\ (forall st, legalizeFuncOp func st = Ok func <-> isLegalFuncOp func = true)
  /\ (forall remappedOperands remappedOperandGroups module module',
        runOnOperation remappedOperands remappedOperandGroups module
          = PassSucceeded module' ->
        func ∈ module' ->
        isLegalFuncOp func = true
        /\ forall st, legalizeFuncOp func st = Ok func).
Proof.
  intros _.
  assert (Hskip : isLegalFuncOp func = true ->
                  forall st, legalizeFuncOp func st = Ok func)
    by (intros Hlegal st; unfold legalizeFuncOp; by rewrite Hlegal).
  split; [apply isLegalFuncOp_spec|]. split.
  - intros st. split; [apply legalizeFuncOp_legal | by auto].
  - intros remappedOperands remappedOperandGroups module module' Hrun Hin.
    unfold runOnOperation in Hrun.
    apply adjustFunctions_succeeded in Hrun as (rewritten & -> & Hall).
    destruct (Forall2_elem_r _ _ _ _ Hall Hin) as (func0 & _ & Hadj).
    apply adjustCallingConventions_inv in Hadj
      as (func1 & newBody & st' & Hfunc1 & _ & ->).
    apply legalizeFuncOp_legal in Hfunc1.
    assert (isLegalFuncOp (setBody func1 newBody) = true)
      by (by rewrite isLegalFuncOp_setBody).
    split; [done | by apply Hskip].
Qed.

Lemma legal_functions_are_skipped_witness :
  isLegalFuncOp plainFunc = true
  /\ legalizeFuncOp plainFunc emptyRewriter = Ok plainFunc.
Proof.
  assert (Hresults : Forall (fun type => isaTupleType type = false)
                            (resultTypes plainFunc))
    by (repeat constructor).
  destruct (legal_functions_are_skipped plainFunc Hresults)
    as (Hlegal & Hskip & _).
  assert (isLegalFuncOp plainFunc = true) as H.
  { apply Hlegal. split; [|split].
    - intros i Hi. unfold getNumArguments in Hi. simpl in Hi.
      destruct i as [|i]; [vm_compute; reflexivity | lia].
    - repeat constructor.
    - repeat constructor. }
  split; [exact H | by apply Hskip].
Defined.

(** C3 as stated fails: a function with a tuple-typed argument and no
    annotation and no none-typed element is legal, and is skipped. *)
Lemma tuple_argument_function_is_legal :
  existsb isaTupleType (argumentTypes tupledFunc ++ resultTypes tupledFunc) = true
  /\ isLegalFuncOp tupledFunc = true
  /\ legalizeFuncOp tupledFunc emptyRewriter = Ok tupledFunc.
Proof. repeat split; vm_compute; reflexivity. Qed.

(** ** Further properties of the pass *)

(** *** The type-bound table *)

Lemma collectTypeBounds_sound (func : FuncOp) (indices : list nat)
    (typeBoundMap : TypeBoundMap) (key : string * nat) (value : Ty) :
  collectTypeBounds func indices typeBoundMap !! key = Some value ->
  typeBoundMap !! key = Some value
  \/ exists i, key = (symName func, i) /\ i ∈ indices
               /\ getArgAttrOfTypeTypeAttr func i typeBoundIdent = Some value.
Proof.
  revert typeBoundMap.
  induction indices as [|j indices IH]; intros typeBoundMap H; simpl in H.
  - by left.
  - destruct (getArgAttrOfTypeTypeAttr func j typeBoundIdent) as [bound|] eqn:Hattr.
    + apply IH in H as [H|(i & -> & Hin & Hi)].
      * destruct (decide ((symName func, j) = key)) as [<-|Hne].
        -- rewrite lookup_insert_eq in H. injection H as ->.
           right. exists j. split; [done|]. split; [apply list_elem_of_here | done].
        -- rewrite lookup_insert_ne in H by done. by left.
      * right. exists i. split; [done|]. split; [by apply list_elem_of_further | done].
    + apply IH in H as [H|(i & -> & Hin & Hi)]; [by left|].
      right. exists i. split; [done|]. split; [by apply list_elem_of_further | done].
Qed.

Lemma foldl_collectTypeBounds_sound (funcs : list FuncOp)
    (typeBoundMap : TypeBoundMap) (key : string * nat) (value : Ty) :
  foldl (fun m func => collectTypeBounds func (seq 0 (getNumArguments func)) m)
        typeBoundMap funcs !! key = Some value ->
  typeBoundMap !! key = Some value
  \/ exists func i,
       func ∈ funcs /\ key = (symName func, i) /\ i < getNumArguments func
       /\ getArgAttrOfTypeTypeAttr func i typeBoundIdent = Some value.
Proof.
  revert typeBoundMap.
  induction funcs as [|head funcs IH]; intros typeBoundMap H; simpl in H.
  - by left.
  - apply IH in H as [H|(func & i & Hin & -> & Hi & Hattr)].
    + apply collectTypeBounds_sound in H as [H|(i & -> & Hin & Hattr)]; [by left|].
      right. exists head, i. split; [apply list_elem_of_here|].
      split; [done|]. split; [|done]. apply elem_of_seq in Hin. lia.
    + right. exists func, i. split; [by apply list_elem_of_further | done].
Qed.

Lemma NoDup_map_inj {A B : Type} (f : A -> B) (l : list A) (x y : A) :
  NoDup (map f l) -> x ∈ l -> y ∈ l -> f x = f y -> x = y.
Proof.
  induction l as [|z l IH]; intros Hnodup Hx Hy Heq.
  - by apply not_elem_of_nil in Hx.
  - simpl in Hnodup. apply NoDup_cons in Hnodup as [Hfresh Hnodup].
    assert (Hmem : forall w, w ∈ l -> f w ∈ map f l)
      by (intros w Hw; apply list_elem_of_In, in_map; by apply list_elem_of_In).
    apply elem_of_cons in Hx as [->|Hx]; apply elem_of_cons in Hy as [->|Hy].
    + done.
    + exfalso. apply Hfresh. rewrite Heq. by apply Hmem.
    + exfalso. apply Hfresh. rewrite <- Heq. by apply Hmem.
    + by apply IH.
Qed.

(** With unique names the table agrees, at every argument position of a
    function of the module, with that argument's annotation. *)
Lemma buildTypeBoundMap_exact (module : list FuncOp) (func : FuncOp) (i : nat) :
  NoDup (map symName module) ->
  func ∈ module ->
  i < getNumArguments func ->
  buildTypeBoundMap module !! (symName func, i)
    = getArgAttrOfTypeTypeAttr func i typeBoundIdent.
Proof.
  intros Hnodup Hin Hi.
  destruct (getArgAttrOfTypeTypeAttr func i typeBoundIdent) as [bound|] eqn:Hattr.
  - by apply buildTypeBoundMap_lookup.
  - destruct (buildTypeBoundMap module !! (symName func, i)) as [value|] eqn:Hmap;
      [|done].
    exfalso. unfold buildTypeBoundMap in Hmap.
    apply foldl_collectTypeBounds_sound in Hmap
      as [Hmap|(other & j & Hother & Hkey & _ & Hbound)].
    + by rewrite lookup_empty in Hmap.
    + injection Hkey as Hname <-.
      assert (func = other) as <- by (by eapply (NoDup_map_inj symName module)).
      congruence.
Qed.

(** *** The signature pattern, continued *)

Lemma matchAndRewriteFunc_inv func st func' st' :
  matchAndRewriteFunc func st = Ok (func', st') ->
  exists conversion,
    convertArguments func (enumerate (argumentTypes func))
      (newSignatureConversion (getNumArguments func)) st = Ok (conversion, st')
    /\ func' = clearTypeBounds
                 (setType (applySignatureConversion func conversion)
                    (convertedTypes conversion)
                    (convertResultTypes (resultTypes func) [])).
Proof.
  unfold matchAndRewriteFunc, Rewrite.bind, Rewrite.ret. intros H.
  destruct (convertArguments _ _ _ st) as [[conversion st1]| |] eqn:Hargs;
    try discriminate.
  injection H as <- <-. by exists conversion.
Qed.

Lemma getArgAttr_removeArgAttr_same func i name :
  getArgAttr (removeArgAttr func i name) i name = None.
Proof.
  unfold getArgAttr, removeArgAttr. simpl.
  destruct (argAttrs func !! i) as [dict|] eqn:Hdict.
  - rewrite list_lookup_insert_eq by (by apply lookup_lt_Some in Hdict).
    apply lookup_delete_eq.
  - by rewrite Hdict.
Qed.

Lemma getArgAttr_removeArgAttr_other func i j name name' :
  i <> j ->
  getArgAttr (removeArgAttr func i name) j name' = getArgAttr func j name'.
Proof.
  intros Hne. unfold getArgAttr, removeArgAttr. simpl.
  destruct (argAttrs func !! i) as [dict|]; [|done].
  by rewrite list_lookup_insert_ne.
Qed.

Lemma getArgAttr_removeArgAttrs func (indices : list nat) i name :
  getArgAttr (foldl (fun f j => removeArgAttr f j name) func indices) i name
    = if decide (i ∈ indices) then None else getArgAttr func i name.
Proof.
  revert func. induction indices as [|j indices IH]; intros func; simpl.
  - destruct (decide (i ∈ [])) as [Hin|]; [by apply not_elem_of_nil in Hin | done].
  - rewrite IH. destruct (decide (i ∈ indices)) as [Hin|Hnotin].
    + by rewrite decide_True by (by apply list_elem_of_further).
    + destruct (decide (i = j)) as [->|Hne].
      * rewrite decide_True by apply list_elem_of_here.
        apply getArgAttr_removeArgAttr_same.
      * rewrite decide_False
          by (intros [?|?]%elem_of_cons; done).
        by apply getArgAttr_removeArgAttr_other.
Qed.

Lemma clearTypeBounds_cleared func i :
  i < getNumArguments func ->
  getArgAttr (clearTypeBounds func) i typeBoundIdent = None.
Proof.
  intros Hi. unfold clearTypeBounds. rewrite getArgAttr_removeArgAttrs.
  rewrite decide_True; [done|]. apply elem_of_seq. lia.
Qed.

Lemma signatureArgumentTypes_clean func index type :
  argumentAccepted func index type = true ->
  Forall (fun new => isaNoneType new = false /\ isaNonValueTensorType new = false)
         (signatureArgumentTypes func index type).
Proof.
  unfold argumentAccepted, signatureArgumentTypes.
  destruct type; simpl; intros H; repeat constructor.
  destruct (getArgAttrOfTypeTypeAttr func index typeBoundIdent) as [[]|];
    try discriminate; repeat constructor.
Qed.

Lemma signatureResultTypes_clean type :
  Forall (fun new => isaNoneType new = false) (signatureResultTypes type)
  <-> tupleWithoutNone type.
Proof.
  unfold tupleWithoutNone. destruct type; simpl.
  - split; [by intros _ ? ? | repeat constructor].
  - split; [by intros _ ? ? | repeat constructor].
  - split; [by intros _ ? ? | constructor].
  - split; [by intros H ? [= <-] | by intros H; apply H].
  - split; [by intros _ ? ? | repeat constructor].
Qed.

(** *** The call pattern, continued *)

Lemma convertTypes_spec (types acc : list Ty) :
  convertTypes types acc = Some (acc ++ concat (map signatureResultTypes types)).
Proof.
  revert acc. induction types as [|type types IH]; intros acc; simpl.
  - by rewrite app_nil_r.
  - destruct type; simpl; rewrite IH, <- ?app_assoc; by rewrite ?app_nil_r.
Qed.

Lemma getType_asValue id name operands type :
  getType (asValue (mkOperation id name operands [type])) = type.
Proof. done. Qed.

Lemma reconstructResults_types newCall (types pre : list Ty) acc st newResults st' :
  Forall (fun type => isaTupleType type = false) types ->
  opResultTypes newCall = pre ++ concat (map signatureResultTypes types) ->
  reconstructResults newCall types (length pre) acc st = Ok (newResults, st') ->
  exists tail, newResults = acc ++ tail /\ map getType tail = types.
Proof.
  intros Hall. revert pre acc st.
  induction Hall as [|type types Htuple _ IH]; intros pre acc st Hres H; simpl in H.
  - injection H as <- _. exists []. by rewrite app_nil_r.
  - destruct (isaNoneType type) eqn:Hnone.
    + unfold Rewrite.bind, Rewrite.create in H. simpl in H.
      assert (type = NoneType) as -> by (by destruct type).
      apply (IH pre) in H as (tail & -> & Htail); [|done].
      eexists (_ :: tail). rewrite <- app_assoc. split; [done|].
      simpl. by rewrite Htail.
    + rewrite Htuple in H. unfold Rewrite.bind, Rewrite.assertSome, getResult in H.
      assert (signatureResultTypes type = [type]) as Hsig
        by (by destruct type).
      simpl in Hres. rewrite Hsig in Hres.
      destruct (decide (length pre < length (opResultTypes newCall)));
        [|discriminate].
      replace (S (length pre)) with (length (pre ++ [type])) in H
        by (rewrite length_app; simpl; lia).
      apply (IH (pre ++ [type])) in H as (tail & -> & Htail).
      * eexists (_ :: tail). rewrite <- app_assoc. split; [done|].
        simpl. rewrite Htail. f_equal.
        rewrite Hres, lookup_app_r, Nat.sub_diag by lia. done.
      * rewrite Hres. by rewrite <- app_assoc.
Qed.

Lemma createsOnly_refl allowed st : createsOnly allowed st st.
Proof.
  exists []. rewrite app_nil_r. simpl. repeat split; [lia | constructor].
Qed.

Lemma createsOnly_trans allowed st1 st2 st3 :
  createsOnly allowed st1 st2 -> createsOnly allowed st2 st3 ->
  createsOnly allowed st1 st3.
Proof.
  intros (e1 & Hc1 & Hi1 & Hn1 & Ha1) (e2 & Hc2 & Hi2 & Hn2 & Ha2).
  exists (e1 ++ e2). split; [by rewrite Hc2, Hc1, app_assoc|].
  rewrite map_app, length_app, seq_app, Hi1, Hi2, Hn1.
  split; [done|]. split; [lia | by apply Forall_app].
Qed.

Lemma createsOnly_create (allowed : OperationName -> bool) name operands types st :
  allowed name = true ->
  createsOnly allowed st
    (mkRewriterState (S (nextId st))
       (createdOps st ++ [mkOperation (nextId st) name operands types])
       (replacements st)).
Proof.
  intros Hallowed. eexists [_]. simpl.
  split; [done|]. split; [done|]. split; [lia | by repeat constructor].
Qed.

Lemma convertOperands_creates typeBoundMap callee (operands : list (nat * Value))
    acc st newOperands st' :
  convertOperands typeBoundMap callee operands acc st = Ok (newOperands, st') ->
  createsOnly (createdByCallPattern callee) st st'.
Proof.
  revert acc st.
  induction operands as [|[index value] operands IH]; intros acc st H; simpl in H.
  - injection H as _ <-. apply createsOnly_refl.
  - destruct (isaNoneType (getType value)); [by eapply IH|].
    destruct (typeBoundMap !! (callee, index)) as [bound|]; [|by eapply IH].
    destruct (isaValueTensorType bound); [|discriminate].
    unfold copyTensorToType, Rewrite.bind, Rewrite.create, Rewrite.ret in H.
    simpl in H. apply IH in H.
    eapply createsOnly_trans; [|exact H]. by apply createsOnly_create.
Qed.

Lemma reconstructResults_creates callee newCall (types : list Ty) idx acc st
    newResults st' :
  reconstructResults newCall types idx acc st = Ok (newResults, st') ->
  createsOnly (createdByCallPattern callee) st st'.
Proof.
  revert idx acc st.
  induction types as [|type types IH]; intros idx acc st H; simpl in H.
  - injection H as _ <-. apply createsOnly_refl.
  - destruct (isaNoneType type); [|destruct (isaTupleType type)].
    + unfold Rewrite.bind, Rewrite.create in H. simpl in H. apply IH in H.
      eapply createsOnly_trans; [|exact H]. by apply createsOnly_create.
    + unfold Rewrite.bind, Rewrite.create in H. simpl in H. apply IH in H.
      eapply createsOnly_trans; [|exact H]. by apply createsOnly_create.
    + unfold Rewrite.bind, Rewrite.assertSome in H.
      destruct (getResult newCall idx); [|discriminate]. by eapply IH.
Qed.

Lemma consecutive_ids_bounds (extra : list Operation) (start : nat) :
  map opId extra = seq start (length extra) ->
  Forall (fun op => start <= opId op < start + length extra) extra.
Proof.
  revert start. induction extra as [|op extra IH]; intros start H; simpl in *.
  - constructor.
  - injection H as Hid Hrest. constructor; [lia|].
    eapply Forall_impl; [by apply IH|]. simpl. intros op' ?. lia.
Qed.

Lemma OperandsAdjusted_erases_none typeBoundMap callee
    (operands : list (nat * Value)) (newOperands : list Value) :
  OperandsAdjusted typeBoundMap callee operands newOperands ->
  Forall (fun value => isaNoneType (getType value) = false) newOperands
  /\ length newOperands
       = length (List.filter (fun p => negb (isaNoneType (getType p.2))) operands).
Proof.
  induction 1 as [|i v rest out Hnone _ [IH1 IH2]
                   |i v bound copy rest out Hnone _ Hvt [id ->] _ [IH1 IH2]
                   |i v rest out Hnone _ _ [IH1 IH2]]; simpl.
  - split; [constructor | done].
  - by rewrite Hnone.
  - rewrite Hnone. simpl. split; [|by rewrite IH2].
    constructor; [|done]. rewrite getType_asValue. by destruct bound.
  - rewrite Hnone. simpl. split; [by constructor | by rewrite IH2].
Qed.

Lemma filter_enumerateFrom_length (f : Value -> bool) (l : list Value) (start : nat) :
  length (List.filter (fun p => f p.2) (enumerateFrom start l))
    = length (List.filter f l).
Proof.
  revert start. induction l as [|x l IH]; intros start; simpl; [done|].
  destruct (f x); simpl; by rewrite IH.
Qed.

Lemma enumerateFrom_elem {A : Type} (l : list A) (start i : nat) (x : A) :
  (i, x) ∈ enumerateFrom start l -> start <= i /\ l !! (i - start) = Some x.
Proof.
  revert start. induction l as [|y l IH]; intros start Hin; simpl in Hin.
  - by apply not_elem_of_nil in Hin.
  - apply elem_of_cons in Hin as [Heq|Hin].
    + injection Heq as -> ->. rewrite Nat.sub_diag. by split.
    + apply IH in Hin as [Hle Hl]. split; [lia|].
      replace (i - start) with (S (i - S start)) by lia. done.
Qed.

Lemma convertOperands_failure typeBoundMap callee (operands : list (nat * Value))
    acc st diag :
  convertOperands typeBoundMap callee operands acc st = Failure diag ->
  exists index value bound,
    (index, value) ∈ operands
    /\ isaNoneType (getType value) = false
    /\ typeBoundMap !! (callee, index) = Some bound
    /\ isaValueTensorType bound = false.
Proof.
  revert acc st.
  induction operands as [|[index value] operands IH]; intros acc st H; simpl in H.
  - discriminate.
  - assert (Hrest : forall acc' st',
               convertOperands typeBoundMap callee operands acc' st' = Failure diag ->
               exists i v b,
                 (i, v) ∈ (index, value) :: operands
                 /\ isaNoneType (getType v) = false
                 /\ typeBoundMap !! (callee, i) = Some b
                 /\ isaValueTensorType b = false).
    { intros acc' st' H'. apply IH in H' as (i & v & b & Hin & ?).
      exists i, v, b. split; [by apply list_elem_of_further | done]. }
    destruct (isaNoneType (getType value)) eqn:Hnone; [by eapply Hrest|].
    destruct (typeBoundMap !! (callee, index)) as [bound|] eqn:Hbound;
      [|by eapply Hrest].
    destruct (isaValueTensorType bound) eqn:Hvt.
    + unfold copyTensorToType, Rewrite.bind, Rewrite.create, Rewrite.ret in H.
      simpl in H. by eapply Hrest.
    + exists index, value, bound. split; [apply list_elem_of_here | done].
Qed.

Lemma convertOperands_types typeBoundMap callee func :
  (forall i, i < getNumArguments func ->
             typeBoundMap !! (callee, i)
               = getArgAttrOfTypeTypeAttr func i typeBoundIdent) ->
  (forall i bound,
      getArgAttrOfTypeTypeAttr func i typeBoundIdent = Some bound ->
      exists info, argumentTypes func !! i = Some (NonValueTensorType info)) ->
  forall (operands : list Value) start acc st newOperands st',
    (forall j value, operands !! j = Some value ->
                     argumentTypes func !! (start + j) = Some (getType value)) ->
    convertOperands typeBoundMap callee (enumerateFrom start operands) acc st
      = Ok (newOperands, st') ->
    map getType newOperands
      = map getType acc
          ++ concat (map (fun p => signatureArgumentTypes func p.1 p.2)
                         (enumerateFrom start (map getType operands))).
Proof.
  intros Htable Hannotated operands.
  induction operands as [|value operands IH];
    intros start acc st newOperands st' Htypes H; simpl in H.
  - injection H as <- _. simpl. by rewrite app_nil_r.
  - pose proof (Htypes 0 value eq_refl) as Harg. rewrite Nat.add_0_r in Harg.
    assert (Hshift : forall j v, operands !! j = Some v ->
               argumentTypes func !! (S start + j) = Some (getType v)).
    { intros j v Hj. replace (S start + j) with (start + S j) by lia.
      by apply Htypes. }
    cbn [map enumerateFrom concat fst snd].
    destruct (isaNoneType (getType value)) eqn:Hnone.
    { apply (IH (S start)) in H; [|done]. rewrite H.
      unfold signatureArgumentTypes at 1.
      by destruct (getType value). }
    rewrite Htable in H by (by apply lookup_lt_Some in Harg).
    unfold signatureArgumentTypes at 1.
    destruct (getArgAttrOfTypeTypeAttr func start typeBoundIdent) as [bound|]
      eqn:Hbound.
    + destruct (isaValueTensorType bound) eqn:Hvt; [|discriminate].
      destruct (Hannotated start bound Hbound) as [info Hinfo].
      rewrite Harg in Hinfo. injection Hinfo as Hinfo. rewrite Hinfo.
      unfold copyTensorToType, Rewrite.bind, Rewrite.create, Rewrite.ret in H.
      simpl in H. apply (IH (S start)) in H; [|done]. rewrite H.
      rewrite map_app. simpl. rewrite <- app_assoc.
      by destruct bound.
    + apply (IH (S start)) in H; [|done]. rewrite H.
      rewrite map_app. simpl. rewrite <- app_assoc.
      by destruct (getType value).
Qed.

Lemma lookup_map_Some {A B : Type} (f : A -> B) (l : list A) (j : nat) (x : A) :
  l !! j = Some x -> map f l !! j = Some (f x).
Proof.
  revert j. induction l as [|y l IH]; intros [|j] H; simpl in *; try done.
  - by injection H as ->.
  - by apply IH.
Qed.

Lemma createdByCallPattern_legal callee (original : gset nat) op :
  createdByCallPattern callee (opName op) = true ->
  opId op ∉ original ->
  opLegality original op = Legal.
Proof.
  unfold createdByCallPattern, opLegality. intros Hkind Hfresh.
  destruct (opName op); try discriminate; try done.
  by rewrite bool_decide_eq_false_2.
Qed.

Lemma createdByReturnPattern_legal (original : gset nat) op :
  createdByReturnPattern (opName op) = true ->
  opId op ∉ original ->
  opLegality original op = Legal.
Proof.
  unfold createdByReturnPattern, opLegality. intros Hkind Hfresh.
  destruct (opName op); try discriminate; try done.
  by rewrite bool_decide_eq_false_2.
Qed.

Lemma matchAndRewriteCall_failure_inv typeBoundMap call operands st diag :
  matchAndRewriteCall typeBoundMap call operands st = Failure diag ->
  convertOperands typeBoundMap (getCallee call) (enumerate operands) [] st
    = Failure diag.
Proof.
  unfold matchAndRewriteCall.
  destruct (convertTypes_success (opResultTypes call) [])
    as (convertedResults & -> & Hlen).
  unfold Rewrite.bind.
  destruct (convertOperands typeBoundMap (getCallee call) (enumerate operands)
              [] st) as [[newOperands st1]|diag'|] eqn:Hops;
    [|by intros [= ->]|by intros ?].
  unfold Rewrite.create at 1.
  match goal with
  | |- context [reconstructResults ?c ?t 0 [] ?s] =>
      destruct (reconstructResults_total c t 0 [] s) as (newResults & st3 & ->)
  end; [simpl in *; lia|].
  by intros ?.
Qed.

(** *** The return pattern, continued *)

Lemma tuple_elements_types tuple (containedTypes : list Ty) (start : nat)
    (elements : list Value) :
  Forall2 (fun p element => isTupleElement tuple p.1 p.2 element)
          (enumerateFrom start containedTypes) elements ->
  map getType elements = containedTypes.
Proof.
  revert start elements.
  induction containedTypes as [|type containedTypes IH];
    intros start elements Hall; simpl in Hall.
  - by apply Forall2_nil_inv_l in Hall as ->.
  - apply Forall2_cons_inv_l in Hall
      as (element & rest & (idInt & idIndex & ->) & Hrest & ->).
    simpl. f_equal. by eapply IH.
Qed.

Lemma convertReturnOperands_types (types : list Ty) (groups : list (list Value)) :
  Forall2 GroupFor types groups ->
  forall acc st,
    exists tail st',
      convertReturnOperands groups acc st = Ok (acc ++ tail, st')
      /\ map getType tail = concat (map signatureResultTypes types).
Proof.
  induction 1 as [|type vals types groups Hgroup _ IH]; intros acc st; simpl.
  - exists [], st. by rewrite app_nil_r.
  - destruct Hgroup as [|type value Htuple Htype
                        |containedTypes vals tuple Hmany Hcast]; simpl.
    + apply IH.
    + rewrite Htype. destruct (isaNoneType type) eqn:Hnone.
      * destruct (IH acc st) as (tail & st' & -> & Htail).
        exists tail, st'. split; [done|]. by destruct type.
      * destruct (IH (acc ++ [value]) st) as (tail & st' & -> & Htail).
        exists (value :: tail), st'. rewrite <- app_assoc. split; [done|].
        simpl. rewrite Htype, Htail. by destruct type.
    + destruct (decide (length vals = 1)); [lia|].
      destruct (decide (1 < length vals)); [|lia].
      destruct Hcast as (first & definingOp & Hhead & Hdef & Hiscast & Hop & Hty).
      destruct vals as [|first' vals]; [discriminate|].
      simpl in Hhead. injection Hhead as ->.
      unfold Rewrite.bind, convertMultiValueGroup.
      rewrite Hdef, Hiscast. unfold Rewrite.bind, Rewrite.assertSome.
      rewrite Hop, Hty. simpl.
      destruct (extractTupleElements_spec tuple (enumerate containedTypes) acc st)
        as (elements & st1 & -> & Hall & _).
      destruct (IH (acc ++ elements) st1) as (tail & st' & -> & Htail).
      exists (elements ++ tail), st'. rewrite app_assoc. split; [done|].
      rewrite map_app, Htail. by rewrite (tuple_elements_types _ _ _ _ Hall).
Qed.

Lemma extractTupleElements_creates operand (containedTypes : list (nat * Ty))
    acc st newOperands st' :
  extractTupleElements operand containedTypes acc st = Ok (newOperands, st') ->
  createsOnly createdByReturnPattern st st'.
Proof.
  revert acc st.
  induction containedTypes as [|[index type] containedTypes IH];
    intros acc st H; simpl in H.
  - injection H as _ <-. apply createsOnly_refl.
  - unfold Rewrite.bind, Rewrite.create in H. simpl in H. apply IH in H.
    eapply createsOnly_trans;
      [exact (createsOnly_create createdByReturnPattern
                (ConstantIntOp (Z.of_nat index)) [] [torchIntType] st eq_refl)|].
    eapply createsOnly_trans; [|exact H].
    exact (createsOnly_create createdByReturnPattern PrimTupleIndexOp _ _
             (mkRewriterState _ _ _) eq_refl).
Qed.

Lemma convertMultiValueGroup_creates (vals : list Value) acc st newOperands st' :
  convertMultiValueGroup vals acc st = Ok (newOperands, st') ->
  createsOnly createdByReturnPattern st st'.
Proof.
  unfold convertMultiValueGroup. intros H.
  assert (Hsame : forall out, Rewrite.ret (A := list Value) out st
                                = Ok (newOperands, st') ->
                              createsOnly createdByReturnPattern st st')
    by (intros out [= _ <-]; apply createsOnly_refl).
  destruct vals as [|first vals]; [by eapply Hsame|].
  destruct (getDefiningOp first) as [definingOp|]; [|by eapply Hsame].
  destruct (isaUnrealizedConversionCastOp definingOp); [|by eapply Hsame].
  unfold Rewrite.bind, Rewrite.assertSome in H.
  destruct (getOperand definingOp 0) as [operand|]; [|discriminate].
  destruct (dynCastTupleType (getType operand)); [|by eapply Hsame].
  by eapply extractTupleElements_creates.
Qed.

Lemma convertReturnOperands_creates (groups : list (list Value)) acc st
    newOperands st' :
  convertReturnOperands groups acc st = Ok (newOperands, st') ->
  createsOnly createdByReturnPattern st st'.
Proof.
  revert acc st.
  induction groups as [|vals groups IH]; intros acc st H; simpl in H.
  - injection H as _ <-. apply createsOnly_refl.
  - destruct (decide (length vals = 1)).
    { destruct vals as [|v ?]; [by eapply IH|].
      destruct (isaNoneType (getType v)); by eapply IH. }
    destruct (decide (1 < length vals)); [|by eapply IH].
    unfold Rewrite.bind in H.
    destruct (convertMultiValueGroup vals acc st) as [[acc1 st1]| |] eqn:Hgroup;
      try discriminate.
    apply convertMultiValueGroup_creates in Hgroup. apply IH in H.
    by eapply createsOnly_trans.
Qed.

Lemma convertMultiValueGroup_no_failure (vals : list Value) acc st diag :
  convertMultiValueGroup vals acc st <> Failure diag.
Proof.
  unfold convertMultiValueGroup.
  destruct vals as [|first vals]; [done|].
  destruct (getDefiningOp first) as [definingOp|]; [|done].
  destruct (isaUnrealizedConversionCastOp definingOp); [|done].
  unfold Rewrite.bind, Rewrite.assertSome.
  destruct (getOperand definingOp 0) as [operand|]; [|done].
  destruct (dynCastTupleType (getType operand)) as [cts|]; [|done].
  by destruct (extractTupleElements_spec operand (enumerate cts) acc st)
    as (elements & st1 & -> & _).
Qed.

Lemma convertReturnOperands_no_failure (groups : list (list Value)) acc st diag :
  convertReturnOperands groups acc st <> Failure diag.
Proof.
  revert acc st.
  induction groups as [|vals groups IH]; intros acc st; simpl; [done|].
  destruct (decide (length vals = 1)).
  { destruct vals as [|v ?]; [apply IH|].
    destruct (isaNoneType (getType v)); apply IH. }
  destruct (decide (1 < length vals)); [|apply IH].
  unfold Rewrite.bind.
  destruct (convertMultiValueGroup vals acc st) as [[acc1 st1]|diag'|] eqn:Hgroup.
  - apply IH.
  - by apply convertMultiValueGroup_no_failure in Hgroup.
  - done.
Qed.

Lemma convertReturnOperands_completed (groups : list (list Value)) acc st
    newOperands st' :
  convertReturnOperands groups acc st = Ok (newOperands, st') ->
  castsHaveOperand groups.
Proof.
  unfold castsHaveOperand. revert acc st.
  induction groups as [|vals groups IH]; intros acc st H; simpl in H.
  - constructor.
  - destruct (decide (length vals = 1)) as [Hone|Hone].
    { constructor; [intros ? ? ?; lia|].
      destruct vals as [|v ?]; [by eapply IH|].
      destruct (isaNoneType (getType v)); by eapply IH. }
    destruct (decide (1 < length vals)) as [Hmany|Hmany].
    2:{ constructor; [intros ? ? ?; lia | by eapply IH]. }
    unfold Rewrite.bind in H.
    destruct (convertMultiValueGroup vals acc st) as [[acc1 st1]| |] eqn:Hgroup;
      try discriminate.
    constructor; [|by eapply IH].
    intros first definingOp _ Hhead Hdef Hcast.
    unfold convertMultiValueGroup in Hgroup.
    destruct vals as [|first' vals]; [discriminate|].
    simpl in Hhead. injection Hhead as ->.
    rewrite Hdef, Hcast in Hgroup.
    unfold Rewrite.bind, Rewrite.assertSome in Hgroup.
    by destruct (getOperand definingOp 0).
Qed.

(** *** The signature pattern and legality *)

Lemma rewritten_func_arguments_clean func st func' st' :
  matchAndRewriteFunc func st = Ok (func', st') ->
  (forall i, i < getNumArguments func' ->
             getArgAttr func' i typeBoundIdent = None)
  /\ Forall (fun type => isaNoneType type = false
                         /\ isaNonValueTensorType type = false)
            (argumentTypes func').
Proof.
  intros H. apply matchAndRewriteFunc_inv in H as (conversion & Hargs & ->).
  apply convertArguments_spec in Hargs as [Htypes Haccepted]. simpl in Htypes.
  set (func2 := setType (applySignatureConversion func conversion)
                  (convertedTypes conversion)
                  (convertResultTypes (resultTypes func) [])).
  destruct (clearTypeBounds_types func2) as (Hargs' & _).
  split.
  - intros i Hi. apply clearTypeBounds_cleared.
    unfold getNumArguments in *. by rewrite Hargs' in Hi.
  - rewrite Hargs'. simpl. rewrite Htypes.
    apply Forall_concat, Forall_map, Forall_forall. intros [index type] Hin.
    apply signatureArgumentTypes_clean.
    apply list_elem_of_In in Hin.
    by apply (proj1 (forallb_forall _ _) Haccepted (index, type)).
Qed.

Lemma rewritten_func_legal_iff func st func' st' :
  matchAndRewriteFunc func st = Ok (func', st') ->
  isLegalFuncOp func' = true <-> Forall tupleWithoutNone (resultTypes func).
Proof.
  intros H.
  destruct (rewritten_func_arguments_clean _ _ _ _ H) as [Hattrs Hclean].
  apply matchAndRewriteFunc_inv in H as (conversion & _ & Heq).
  assert (Hres : resultTypes func'
                 = concat (map signatureResultTypes (resultTypes func))).
  { rewrite Heq.
    destruct (clearTypeBounds_types
                (setType (applySignatureConversion func conversion)
                   (convertedTypes conversion)
                   (convertResultTypes (resultTypes func) [])))
      as (_ & -> & _).
    simpl. by rewrite convertResultTypes_spec. }
  rewrite isLegalFuncOp_spec, Hres, Forall_concat, Forall_map.
  split.
  - intros (_ & _ & Hnone). eapply Forall_impl; [exact Hnone|].
    intros type. apply signatureResultTypes_clean.
  - intros Hnone. split; [done|]. split.
    + eapply Forall_impl; [exact Hclean|]. by intros type [? _].
    + eapply Forall_impl; [exact Hnone|].
      intros type. apply signatureResultTypes_clean.
Qed.

Lemma legalizeFuncOp_succeeds_iff func st :
  (exists func', legalizeFuncOp func st = Ok func') <-> signatureConvertible func.
Proof.
  unfold legalizeFuncOp, signatureConvertible.
  destruct (isLegalFuncOp func) eqn:Hlegal.
  { split; [by left | by eexists]. }
  split.
  - intros [func' H]. right.
    destruct (matchAndRewriteFunc func st) as [[func1 st1]| |] eqn:Hfunc;
      try discriminate.
    destruct (isLegalFuncOp func1) eqn:Hlegal1; [|discriminate].
    split.
    + apply matchAndRewriteFunc_inv in Hfunc as (conversion & Hargs & _).
      by apply convertArguments_spec in Hargs as [_ ?].
    + by apply (rewritten_func_legal_iff _ _ _ _ Hfunc).
  - intros [?|[Haccepted Hnone]]; [done|].
    destruct (convertArguments_accepts func _
                (newSignatureConversion (getNumArguments func)) st Haccepted)
      as [conversion Hargs].
    assert (exists func1, matchAndRewriteFunc func st = Ok (func1, st))
      as [func1 Hfunc]
      by (unfold matchAndRewriteFunc, Rewrite.bind; rewrite Hargs; by eexists).
    rewrite Hfunc.
    apply (rewritten_func_legal_iff _ _ _ _ Hfunc) in Hnone. rewrite Hnone.
    by eexists.
Qed.

(** *** Created operations *)

Lemma createsOnly_fresh_legal allowed st st' (original : gset nat) :
  createsOnly allowed st st' ->
  (forall op, allowed (opName op) = true -> opId op ∉ original ->
              opLegality original op = Legal) ->
  (forall id, id ∈ original -> id < nextId st) ->
  exists extra,
    createdOps st' = createdOps st ++ extra
    /\ map opId extra = seq (nextId st) (length extra)
    /\ nextId st' = nextId st + length extra
    /\ Forall (fun op => allowed (opName op) = true) extra
    /\ Forall (fun op => opLegality original op = Legal) extra.
Proof.
  intros (extra & Hcreated & Hids & Hnext & Hkinds) Hlegal Hbelow.
  exists extra. repeat split; try done.
  pose proof (consecutive_ids_bounds _ _ Hids) as Hbounds.
  apply Forall_forall. intros op Hin. apply Hlegal.
  - by apply (proj1 (Forall_forall _ _) Hkinds).
  - intros Hmem. apply Hbelow in Hmem.
    apply (proj1 (Forall_forall _ _) Hbounds) in Hin. lia.
Qed.

Lemma callPattern_creates typeBoundMap call operands st u st' :
  matchAndRewriteCall typeBoundMap call operands st = Ok (u, st') ->
  createsOnly (createdByCallPattern (getCallee call)) st st'.
Proof.
  intros H.
  apply matchAndRewriteCall_inv in H
    as (convertedResults & newOperands & st1 & newResults & st3
        & _ & Hops & Hres & ->).
  apply convertOperands_creates in Hops.
  apply (reconstructResults_creates (getCallee call)) in Hres.
  pose proof (createsOnly_create (createdByCallPattern (getCallee call))
                (CallOp (getCallee call)) newOperands convertedResults st1
                (bool_decide_eq_true_2 _ eq_refl)) as Hcreate.
  exact (createsOnly_trans _ _ _ _ Hops
           (createsOnly_trans _ _ _ _ Hcreate Hres)).
Qed.

Lemma returnPattern_creates op groups st u st' :
  matchAndRewriteReturn op groups st = Ok (u, st') ->
  createsOnly createdByReturnPattern st st'.
Proof.
  intros H.
  apply matchAndRewriteReturn_inv in H as (newOperands & st1 & Hops & ->).
  apply convertReturnOperands_creates in Hops.
  pose proof (createsOnly_create createdByReturnPattern ReturnOp newOperands []
                st1 eq_refl) as Hcreate.
  exact (createsOnly_trans _ _ _ _ Hops Hcreate).
Qed.

Lemma matchAndRewriteCall_accepts typeBoundMap call operands st :
  ~ callRejected typeBoundMap (getCallee call) operands ->
  exists st', matchAndRewriteCall typeBoundMap call operands st = Ok (tt, st').
Proof.
  intros Hnot.
  destruct (matchAndRewriteCall_outcome typeBoundMap call operands st)
    as [Hok|Hfail]; [done|].
  exfalso. apply Hnot.
  apply matchAndRewriteCall_failure_inv, convertOperands_failure in Hfail
    as (i & value & bound & Hin & Hnone & Hbound & Hvt).
  apply enumerateFrom_elem in Hin as [_ Hin]. rewrite Nat.sub_0_r in Hin.
  by exists i, value, bound.
Qed.

Lemma matchAndRewriteCall_rejects typeBoundMap call operands st :
  callRejected typeBoundMap (getCallee call) operands ->
  matchAndRewriteCall typeBoundMap call operands st
    = Failure (Some unimplementedBound).
Proof.
  intros (i & value & bound & Hi & Hnone & Hbound & Hvt).
  destruct (matchAndRewriteCall_outcome typeBoundMap call operands st)
    as [[st' Hok]|Hfail]; [|done].
  exfalso. apply matchAndRewriteCall_inv in Hok
    as (convertedResults & newOperands & st1 & newResults & st3
        & _ & Hops & _).
  rewrite (convertOperands_rejects _ _ _ _ _ i value bound) in Hops;
    [done | by apply enumerate_lookup | done..].
Qed.

(** *** When the conversion succeeds *)

Section DriverSuccess.

Variable remappedOperands : Operation -> list Value.
Variable remappedOperandGroups : Operation -> list (list Value).

Local Abbreviation convertOps :=
  (convertOperations remappedOperands remappedOperandGroups).
Local Abbreviation legalizeOp :=
  (legalizeWithPattern remappedOperands remappedOperandGroups).
Local Abbreviation adjust :=
  (adjustCallingConventions remappedOperands remappedOperandGroups).
Local Abbreviation adjustAll :=
  (adjustFunctions remappedOperands remappedOperandGroups).
Local Abbreviation opConvertible :=
  (bodyOpConvertible remappedOperands remappedOperandGroups).

Lemma legalizeWithPattern_succeeds typeBoundMap (original : gset nat) op st :
  (isCallOp op || isReturnOp op) = true ->
  opConvertible typeBoundMap op ->
  (forall id, id ∈ original -> id < nextId st) ->
  exists created st',
    legalizeOp typeBoundMap original op st = Ok (created, st')
    /\ nextId st <= nextId st'.
Proof.
  intros Hkind Hconv Hbelow.
  unfold legalizeWithPattern, patternFor, bodyOpConvertible in *.
  unfold isCallOp, isReturnOp in Hkind.
  set (st0 := mkRewriterState (nextId st) [] (replacements st)).
  destruct (opName op) as [callee| | | | | | | | |] eqn:Hname; try discriminate.
  - assert (Hcallee : getCallee op = callee)
      by (unfold getCallee; by rewrite Hname).
    rewrite <- Hcallee in Hconv.
    destruct (matchAndRewriteCall_accepts typeBoundMap op (remappedOperands op)
                st0 Hconv) as [st1 Hrun].
    rewrite Hrun.
    destruct (createsOnly_fresh_legal _ st0 st1 original
                (callPattern_creates _ _ _ _ _ _ Hrun)
                (createdByCallPattern_legal (getCallee op) original) Hbelow)
      as (extra & Hcreated & _ & Hnext & _ & Hlegal).
    simpl in Hcreated, Hnext. rewrite Hcreated.
    replace (forallb (isLegalOp original) extra) with true.
    + do 2 eexists. split; [done|]. simpl. lia.
    + symmetry. apply forallb_forall. intros new Hin.
      apply list_elem_of_In in Hin.
      apply (proj1 (Forall_forall _ _) Hlegal) in Hin.
      unfold isLegalOp. by rewrite Hin.
  - destruct (convertReturnOperands_total (remappedOperandGroups op) [] st0 Hconv)
      as (newOperands & st1 & Hops).
    assert (exists st2, matchAndRewriteReturn op (remappedOperandGroups op) st0
                        = Ok (tt, st2)) as [st2 Hrun]
      by (unfold matchAndRewriteReturn, Rewrite.bind; rewrite Hops; by eexists).
    rewrite Hrun.
    destruct (createsOnly_fresh_legal _ st0 st2 original
                (returnPattern_creates _ _ _ _ _ Hrun)
                (createdByReturnPattern_legal original) Hbelow)
      as (extra & Hcreated & _ & Hnext & _ & Hlegal).
    simpl in Hcreated, Hnext. rewrite Hcreated.
    replace (forallb (isLegalOp original) extra) with true.
    + do 2 eexists. split; [done|]. simpl. lia.
    + symmetry. apply forallb_forall. intros new Hin.
      apply list_elem_of_In in Hin.
      apply (proj1 (Forall_forall _ _) Hlegal) in Hin.
      unfold isLegalOp. by rewrite Hin.
Qed.

Lemma convertOperations_succeeds typeBoundMap (original : gset nat)
    (ops : list Operation) :
  Forall (opConvertible typeBoundMap) ops ->
  forall acc st,
    (forall id, id ∈ original -> id < nextId st) ->
    exists newBody st', convertOps typeBoundMap original ops acc st = Ok (newBody, st').
Proof.
  induction 1 as [|op ops Hop _ IH]; intros acc st Hbelow; simpl.
  - by do 2 eexists.
  - destruct (isCallOp op || isReturnOp op) eqn:Hkind.
    + destruct (legalizeWithPattern_succeeds typeBoundMap original op st
                  Hkind Hop Hbelow) as (created & st1 & Hleg & Hnext).
      rewrite Hleg.
      assert (Hbelow1 : forall id, id ∈ original -> id < nextId st1)
        by (intros id Hid; apply Hbelow in Hid; lia).
      destruct (opLegality original op); by apply IH.
    + assert (Hnone : legalizeOp typeBoundMap original op st = Failure None).
      { unfold legalizeWithPattern, patternFor.
        unfold isCallOp, isReturnOp in Hkind.
        by destruct (opName op). }
      rewrite Hnone.
      assert (Hlegality : opLegality original op <> Illegal).
      { unfold bodyOpConvertible in Hop. unfold opLegality.
        unfold isCallOp, isReturnOp in Hkind.
        by destruct (opName op). }
      destruct (opLegality original op); [by apply IH | done | by apply IH].
Qed.

Lemma convertOperations_completed typeBoundMap func newBody st' :
  convertOps typeBoundMap (opsInOriginalProgram func) (body func) []
    (initialRewriter func) = Ok (newBody, st') ->
  Forall (opConvertible typeBoundMap) (body func).
Proof.
  intros H. apply convertOperations_spec in H as (pieces & _ & Hpieces).
  apply Forall_forall. intros op Hin.
  destruct (Forall2_elem_l _ _ _ _ Hpieces Hin) as (piece & _ & Hconverted).
  unfold bodyOpConvertible.
  destruct (opName op) as [callee| | | | | | | | |] eqn:Hname; try done.
  - assert (Hillegal : opLegality (opsInOriginalProgram func) op = Illegal).
    { apply original_call_or_return_illegal; [done|].
      unfold isCallOp. by rewrite Hname. }
    inversion Hconverted as [Hkept|pattern st u st1 _ Hpattern _ Hrun _]; subst;
      [done|].
    unfold patternFor in Hpattern. rewrite Hname in Hpattern.
    injection Hpattern as <-.
    intros Hrejected.
    assert (Hcallee : getCallee op = callee)
      by (unfold getCallee; by rewrite Hname).
    rewrite <- Hcallee in Hrejected.
    by rewrite (matchAndRewriteCall_rejects _ _ _ st Hrejected) in Hrun.
  - assert (Hillegal : opLegality (opsInOriginalProgram func) op = Illegal).
    { apply original_call_or_return_illegal; [done|].
      unfold isCallOp, isReturnOp. by rewrite Hname. }
    inversion Hconverted as [Hkept|pattern st u st1 _ Hpattern _ Hrun _]; subst;
      [done|].
    unfold patternFor in Hpattern. rewrite Hname in Hpattern.
    injection Hpattern as <-.
    apply matchAndRewriteReturn_inv in Hrun as (newOperands & st2 & Hops & _).
    by eapply convertReturnOperands_completed.
  - inversion Hconverted as [Hkept|pattern st u st1 _ Hpattern]; subst.
    + apply Hkept. unfold opLegality. by rewrite Hname.
    + unfold patternFor in Hpattern. by rewrite Hname in Hpattern.
Qed.

Lemma original_ids_below_fresh func id :
  id ∈ opsInOriginalProgram func -> id < nextId (initialRewriter func).
Proof.
  intros Hid. apply elem_of_opsInOriginalProgram in Hid as (op & Hin & _ & <-).
  simpl. apply Nat.lt_succ_r, max_list_elem_of_le.
  apply list_elem_of_In, in_map. by apply list_elem_of_In.
Qed.

(** The conversion of a function succeeds exactly when the function is
    convertible. *)
Lemma adjustCallingConventions_succeeds_iff func typeBoundMap :
  (exists func', adjust func typeBoundMap = Ok func')
  <-> convertible remappedOperands remappedOperandGroups typeBoundMap func.
Proof.
  unfold convertible. split.
  - intros [func' H].
    apply adjustCallingConventions_inv in H
      as (func1 & newBody & st' & Hfunc & Hbody & _).
    split.
    + apply (legalizeFuncOp_succeeds_iff func (initialRewriter func)).
      by exists func1.
    + by eapply convertOperations_completed.
  - intros [Hsig Hbody].
    apply (legalizeFuncOp_succeeds_iff func (initialRewriter func)) in Hsig
      as [func1 Hfunc].
    destruct (convertOperations_succeeds typeBoundMap (opsInOriginalProgram func)
                (body func) Hbody [] (initialRewriter func)
                (original_ids_below_fresh func))
      as (newBody & st' & Hconv).
    unfold adjustCallingConventions. rewrite Hfunc, Hconv. by eexists.
Qed.

Lemma adjustFunctions_succeeds typeBoundMap (funcs : list FuncOp) :
  Forall (convertible remappedOperands remappedOperandGroups typeBoundMap) funcs ->
  forall converted,
    exists module', adjustAll typeBoundMap funcs converted = PassSucceeded module'.
Proof.
  induction 1 as [|func funcs Hfunc _ IH]; intros converted; simpl.
  - by eexists.
  - apply adjustCallingConventions_succeeds_iff in Hfunc as [func' ->].
    apply IH.
Qed.

Lemma adjustCallingConventions_name func typeBoundMap func' :
  adjust func typeBoundMap = Ok func' -> symName func' = symName func.
Proof.
  intros H. apply adjustCallingConventions_inv in H
    as (func1 & newBody & st' & Hfunc & _ & ->).
  simpl. unfold legalizeFuncOp in Hfunc.
  destruct (isLegalFuncOp func); [by injection Hfunc as <-|].
  destruct (matchAndRewriteFunc func (initialRewriter func))
    as [[func2 st2]| |] eqn:Hrewrite; try discriminate.
  destruct (isLegalFuncOp func2); [|discriminate]. injection Hfunc as <-.
  apply matchAndRewriteFunc_inv in Hrewrite as (conversion & _ & ->).
  by destruct (clearTypeBounds_types
                 (setType (applySignatureConversion func conversion)
                    (convertedTypes conversion)
                    (convertResultTypes (resultTypes func) [])))
    as (_ & _ & _ & ->).
Qed.

Lemma adjustFunctions_names typeBoundMap (funcs converted : list FuncOp) :
  match adjustAll typeBoundMap funcs converted with
  | PassSucceeded module' | PassFailed module' _ =>
      map symName module' = map symName converted ++ map symName funcs
  | PassAborted => True
  end.
Proof.
  revert converted. induction funcs as [|func funcs IH]; intros converted; simpl.
  - by rewrite app_nil_r.
  - destruct (adjust func typeBoundMap) as [func'| |] eqn:Hadj; [| |done].
    + specialize (IH (converted ++ [func'])).
      destruct (adjustAll typeBoundMap funcs (converted ++ [func']));
        try done; rewrite IH, map_app, <- app_assoc; simpl;
        by rewrite (adjustCallingConventions_name _ _ _ Hadj).
    + by rewrite map_app.
Qed.

End DriverSuccess.

(** *** Tuple reconstruction next to none-typed results *)

Lemma specResultSources_nones (types rest : list Ty) (cursor : nat) :
  Forall (fun type => isaNoneType type = true) types ->
  specResultSources (types ++ rest) cursor
    = map (fun _ => FromConstantNone) types ++ specResultSources rest cursor.
Proof.
  induction 1 as [|type types Hnone _ IH]; simpl; [done|].
  destruct type; try discriminate. by rewrite IH.
Qed.

Lemma reconstructResults_nones newCall (types rest : list Ty) idx acc st
    newResults st' :
  Forall (fun type => isaNoneType type = true) types ->
  reconstructResults newCall (types ++ rest) idx acc st = Ok (newResults, st') ->
  exists nones st1,
    map resultSource nones = map (fun _ => FromConstantNone) types
    /\ reconstructResults newCall rest idx (acc ++ nones) st1
         = Ok (newResults, st').
Proof.
  intros Hall. revert acc st.
  induction Hall as [|type types Hnone _ IH]; intros acc st H; simpl in H.
  - exists [], st. by rewrite app_nil_r.
  - rewrite Hnone in H. unfold Rewrite.bind, Rewrite.create in H. simpl in H.
    apply IH in H as (nones & st1 & Hsources & Hrest).
    eexists (_ :: nones), st1. rewrite <- app_assoc in Hrest.
    split; [|exact Hrest]. simpl. by rewrite Hsources.
Qed.

Lemma convertTypes_nones (types : list Ty) :
  Forall (fun type => isaNoneType type = true) types ->
  concat (map signatureResultTypes types) = [].
Proof.
  induction 1 as [|type types Hnone _ IH]; simpl; [done|].
  destruct type; try discriminate. done.
Qed.

(** *** The module a failed run leaves behind *)

Section FailedRun.

Variable remappedOperands : Operation -> list Value.
Variable remappedOperandGroups : Operation -> list (list Value).

Lemma adjustFunctions_failed typeBoundMap (funcs converted module' : list FuncOp)
    diag :
  adjustFunctions remappedOperands remappedOperandGroups typeBoundMap funcs
    converted = PassFailed module' diag ->
  exists before func after rewritten,
    funcs = before ++ func :: after
    /\ module' = converted ++ rewritten ++ func :: after
    /\ Forall2 (fun old new =>
                  adjustCallingConventions remappedOperands
                    remappedOperandGroups old typeBoundMap = Ok new)
               before rewritten
    /\ adjustCallingConventions remappedOperands remappedOperandGroups func
         typeBoundMap = Failure diag.
Proof.
  revert converted.
  induction funcs as [|head funcs IH]; intros converted H; simpl in H.
  - discriminate.
  - destruct (adjustCallingConventions remappedOperands remappedOperandGroups
                head typeBoundMap) as [head'|diag'|] eqn:Hadj; [| |discriminate].
    + apply IH in H as (before & func & after & rewritten & -> & -> & Hall & Hfail).
      exists (head :: before), func, after, (head' :: rewritten).
      rewrite <- app_assoc. split; [done|]. split; [done|].
      split; [by constructor | done].
    + injection H as <- <-. exists [], head, funcs, [].
      split; [done|]. split; [done|]. split; [constructor | done].
Qed.

End FailedRun.

(** ** Further guarantees *)

(** X1. The collected table holds nothing but annotations: an entry at
    (name, index) is the type bound of argument [index] of some function
    of the module with that name; and with unique function names the
    entry at an argument position of a function is exactly that
    argument's type-attribute bound, absent when there is none. *)
Theorem type_bound_table_is_exact (module : list FuncOp) :
  (forall name i value,
      buildTypeBoundMap module !! (name, i) = Some value ->
      exists func,
        func ∈ module /\ symName func = name /\ i < getNumArguments func
        /\ getArgAttrOfTypeTypeAttr func i typeBoundIdent = Some value)
  /\ (NoDup (map symName module) ->
      forall func i,
        func ∈ module -> i < getNumArguments func ->
        buildTypeBoundMap module !! (symName func, i)
          = getArgAttrOfTypeTypeAttr func i typeBoundIdent).
Proof.
  split.
  - intros name i value H. unfold buildTypeBoundMap in H.
    apply foldl_collectTypeBounds_sound in H
      as [H|(func & j & Hin & Hkey & Hj & Hattr)].
    + by rewrite lookup_empty in H.
    + injection Hkey as -> ->. by exists func.
  - intros Hnodup func i Hin Hi. by apply buildTypeBoundMap_exact.
Qed.

Lemma type_bound_table_is_exact_witness :
  buildTypeBoundMap twoFunctions !! ("basic", 0) = Some vtensor
  /\ buildTypeBoundMap twoFunctions !! ("basic", 1) = None.
Proof.
  assert (Hnodup : NoDup (map symName twoFunctions)).
  { apply NoDup_cons. split; [|apply NoDup_singleton].
    intros Hin. apply list_elem_of_singleton in Hin. discriminate. }
  pose proof (proj2 (type_bound_table_is_exact twoFunctions) Hnodup basicFunc)
    as Hexact.
  assert (Hin : basicFunc ∈ twoFunctions) by apply list_elem_of_here.
  split.
  - etransitivity; [apply (Hexact 0 Hin) | vm_compute; reflexivity].
    unfold getNumArguments. simpl. lia.
  - etransitivity; [apply (Hexact 1 Hin) | vm_compute; reflexivity].
    unfold getNumArguments. simpl. lia.
Defined.

(** X2. After a successful signature rewrite no argument carries a
    [torch.type_bound] annotation, no argument is none-typed or a
    non-value tensor, and the function is legal exactly when no
    tuple-typed result of the original function contains a none type. *)
Theorem signature_rewrite_cleans_signature
    (func func' : FuncOp) (st st' : RewriterState) :
  matchAndRewriteFunc func st = Ok (func', st') ->
  (forall i, i < getNumArguments func' ->
             getArgAttr func' i typeBoundIdent = None)
  /\ Forall (fun type => isaNoneType type = false
                         /\ isaNonValueTensorType type = false)
            (argumentTypes func')
  /\ (isLegalFuncOp func' = true
      <-> Forall tupleWithoutNone (resultTypes func)).
Proof.
  intros H.
  destruct (rewritten_func_arguments_clean _ _ _ _ H) as [Hattrs Hclean].
  split; [exact Hattrs|]. split; [exact Hclean|].
  exact (rewritten_func_legal_iff _ _ _ _ H).
Qed.

Lemma signature_rewrite_cleans_signature_witness :
  match matchAndRewriteFunc basicFunc emptyRewriter with
  | Ok (func', _) =>
      getArgAttr func' 0 typeBoundIdent = None /\ isLegalFuncOp func' = true
  | _ => False
  end.
Proof.
  destruct (matchAndRewriteFunc basicFunc emptyRewriter) as [[func' st']| |] eqn:E.
  - destruct (signature_rewrite_cleans_signature _ _ _ _ E)
      as (Hattrs & Htypes & Hlegal).
    split.
    + apply Hattrs.
      assert (getNumArguments func' = 2) as ->; [|lia].
      vm_compute in E. injection E as <- _. reflexivity.
    + apply Hlegal. repeat constructor; intros cts Heq; try discriminate.
      injection Heq as <-. repeat constructor.
  - vm_compute in E. discriminate.
  - vm_compute in E. discriminate.
Defined.

(** X3. The signature rewrite stops at the first non-value tensor
    argument without a value-tensor bound.  It succeeds when there is
    none; it fails with the unsupported-bound diagnostic when that
    argument carries a bound, which is then not a value tensor type (for
    this it is enough that the earlier non-value tensor arguments carry
    some bound); and it is a crash, not a match failure, when that
    argument carries no type-attribute bound, [isa<>] being applied to the
    null type.  A bare failure never occurs. *)
Theorem signature_rewrite_outcome (func : FuncOp) (st : RewriterState) :
  (forallb (fun p => argumentAccepted func p.1 p.2)
           (enumerate (argumentTypes func)) = true ->
   exists func' st', matchAndRewriteFunc func st = Ok (func', st'))
  /\ (forall i info bound,
        argumentTypes func !! i = Some (NonValueTensorType info) ->
        getArgAttrOfTypeTypeAttr func i typeBoundIdent = Some bound ->
        isaValueTensorType bound = false ->
        (forall j info',
            j < i -> argumentTypes func !! j = Some (NonValueTensorType info') ->
            is_Some (getArgAttrOfTypeTypeAttr func j typeBoundIdent)) ->
        matchAndRewriteFunc func st = Failure (Some unimplementedBound))
  /\ (forall i info,
        argumentTypes func !! i = Some (NonValueTensorType info) ->
        getArgAttrOfTypeTypeAttr func i typeBoundIdent = None ->
        (forall j type,
            j < i -> argumentTypes func !! j = Some type ->
            argumentAccepted func j type = true) ->
        matchAndRewriteFunc func st = AssertionFailure)
  /\ matchAndRewriteFunc func st <> Failure None.
Proof.
  unfold matchAndRewriteFunc, Rewrite.bind, Rewrite.ret, enumerate.
  split; [|split; [|split]].
  - intros Hall.
    destruct (convertArguments_accepts func _
                (newSignatureConversion (getNumArguments func)) st Hall)
      as [conversion ->].
    by do 2 eexists.
  - intros i info bound Harg Hbound Hvt Hearlier.
    by rewrite (convertArguments_rejects_bound func _ 0 i info bound).
  - intros i info Harg Hbound Hearlier.
    by rewrite (convertArguments_crashes func _ 0 i info).
  - destruct (convertArguments_outcome func
                (enumerateFrom 0 (argumentTypes func))
                (newSignatureConversion (getNumArguments func)) st)
      as [[conversion ->]|[-> | ->]]; done.
Qed.

Lemma signature_rewrite_outcome_witness :
  (exists func' st', matchAndRewriteFunc basicFunc emptyRewriter = Ok (func', st'))
  /\ matchAndRewriteFunc rejectedFunc emptyRewriter
       = Failure (Some unimplementedBound)
  /\ matchAndRewriteFunc unboundFunc emptyRewriter = AssertionFailure.
Proof.
  split; [|split].
  - apply (proj1 (signature_rewrite_outcome basicFunc emptyRewriter)).
    vm_compute. reflexivity.
  - apply (proj1 (proj2 (signature_rewrite_outcome rejectedFunc emptyRewriter))
             0 0 tensor); [reflexivity | vm_compute; reflexivity | reflexivity |].
    intros j info' Hj. lia.
  - apply (proj1 (proj2 (proj2 (signature_rewrite_outcome unboundFunc
                                  emptyRewriter))) 1 0);
      [reflexivity | vm_compute; reflexivity |].
    intros [|j] type Hj Htype; [|lia].
    simpl in Htype. injection Htype as <-. reflexivity.
Defined.

(** X4. The new call of a rewritten call has the result types the
    signature pattern gives the callee: when the call's result types are
    the function's declared result types, the new call's result types are
    the rewritten function's result types. *)
Theorem rewritten_call_has_callee_result_types
    (typeBoundMap : TypeBoundMap) (call : Operation) (operands : list Value)
    (st st' : RewriterState) (func func' : FuncOp) (st0 st0' : RewriterState) :
  matchAndRewriteCall typeBoundMap call operands st = Ok (tt, st') ->
  matchAndRewriteFunc func st0 = Ok (func', st0') ->
  opResultTypes call = resultTypes func ->
  exists newCall,
    newCall ∈ createdOps st'
    /\ opName newCall = CallOp (getCallee call)
    /\ opResultTypes newCall = resultTypes func'.
Proof.
  intros Hcall Hfunc Hsame.
  apply matchAndRewriteCall_inv in Hcall
    as (convertedResults & newOperands & st1 & newResults & st3
        & Hconv & _ & Hres & ->).
  apply reconstructResults_spec in Hres as (_ & _ & _ & _ & ([extra Hext] & _)).
  apply matchAndRewriteFunc_inv in Hfunc as (conversion & _ & ->).
  exists (mkOperation (nextId st1) (CallOp (getCallee call)) newOperands
            convertedResults).
  split; [|split; [done|]].
  - simpl in *. rewrite Hext.
    apply elem_of_app. left. apply elem_of_app. right. apply list_elem_of_here.
  - destruct (clearTypeBounds_types
                (setType (applySignatureConversion func conversion)
                   (convertedTypes conversion)
                   (convertResultTypes (resultTypes func) [])))
      as (_ & -> & _).
    simpl. rewrite convertTypes_spec in Hconv. injection Hconv as <-.
    by rewrite convertResultTypes_spec, Hsame.
Qed.

Lemma rewritten_call_has_callee_result_types_witness :
  match matchAndRewriteCall (buildTypeBoundMap twoFunctions) basicCall
          basicCallOperands emptyRewriter,
        matchAndRewriteFunc basicFunc emptyRewriter with
  | Ok (_, st'), Ok (func', _) =>
      exists newCall,
        newCall ∈ createdOps st'
        /\ opName newCall = CallOp "basic"
        /\ opResultTypes newCall = resultTypes func'
  | _, _ => False
  end.
Proof.
  destruct (matchAndRewriteCall (buildTypeBoundMap twoFunctions) basicCall
              basicCallOperands emptyRewriter) as [[[] st']| |] eqn:Ecall;
    [|vm_compute in Ecall; discriminate..].
  destruct (matchAndRewriteFunc basicFunc emptyRewriter) as [[func' st0']| |]
    eqn:Efunc; [|vm_compute in Efunc; discriminate..].
  exact (rewritten_call_has_callee_result_types _ _ _ _ _ _ _ _ _
           Ecall Efunc eq_refl).
Defined.

(** X5. The operands of the new call have the argument types the
    signature pattern gives the callee.  This needs the table collected
    from a module with unique function names that contains the callee,
    operands of the callee's declared argument types, and annotations on
    non-value tensor arguments only: the call pattern copies to the bound
    wherever the table has one, the signature pattern only retypes
    non-value tensors. *)
Theorem rewritten_call_has_callee_argument_types
    (module : list FuncOp) (func func' : FuncOp) (call : Operation)
    (operands : list Value) (st st' st0 st0' : RewriterState) :
  NoDup (map symName module) ->
  func ∈ module ->
  (forall i bound,
      getArgAttrOfTypeTypeAttr func i typeBoundIdent = Some bound ->
      exists info, argumentTypes func !! i = Some (NonValueTensorType info)) ->
  getCallee call = symName func ->
  map getType operands = argumentTypes func ->
  matchAndRewriteFunc func st0 = Ok (func', st0') ->
  matchAndRewriteCall (buildTypeBoundMap module) call operands st = Ok (tt, st') ->
  exists newCall,
    newCall ∈ createdOps st'
    /\ opName newCall = CallOp (symName func)
    /\ map getType (opOperands newCall) = argumentTypes func'.
Proof.
  intros Hnodup Hin Hannotated Hcallee Htypes Hfunc Hcall.
  apply matchAndRewriteCall_inv in Hcall
    as (convertedResults & newOperands & st1 & newResults & st3
        & _ & Hops & Hres & ->).
  apply reconstructResults_spec in Hres as (_ & _ & _ & _ & ([extra Hext] & _)).
  apply matchAndRewriteFunc_inv in Hfunc as (conversion & Hargs & ->).
  apply convertArguments_spec in Hargs as [Hconverted _].
  rewrite Hcallee in *.
  exists (mkOperation (nextId st1) (CallOp (symName func)) newOperands
            convertedResults).
  split; [|split; [done|]].
  - simpl in *. rewrite Hext.
    apply elem_of_app. left. apply elem_of_app. right. apply list_elem_of_here.
  - destruct (clearTypeBounds_types
                (setType (applySignatureConversion func conversion)
                   (convertedTypes conversion)
                   (convertResultTypes (resultTypes func) [])))
      as (-> & _).
    simpl. rewrite Hconverted. simpl.
    unfold enumerate in *. rewrite <- Htypes.
    apply (convertOperands_types (buildTypeBoundMap module) (symName func) func)
      with (acc := []) (st := st) (st' := st1); [| |  |done].
    + intros i Hi. by apply buildTypeBoundMap_exact.
    + done.
    + intros j value Hj. simpl. rewrite <- Htypes. by apply lookup_map_Some.
Qed.

Lemma rewritten_call_has_callee_argument_types_witness :
  match matchAndRewriteCall (buildTypeBoundMap twoFunctions) basicCall
          basicCallOperands emptyRewriter,
        matchAndRewriteFunc basicFunc emptyRewriter with
  | Ok (_, st'), Ok (func', _) =>
      exists newCall,
        newCall ∈ createdOps st'
        /\ opName newCall = CallOp "basic"
        /\ map getType (opOperands newCall) = argumentTypes func'
  | _, _ => False
  end.
Proof.
  destruct (matchAndRewriteCall (buildTypeBoundMap twoFunctions) basicCall
              basicCallOperands emptyRewriter) as [[[] st']| |] eqn:Ecall;
    [|vm_compute in Ecall; discriminate..].
  destruct (matchAndRewriteFunc basicFunc emptyRewriter) as [[func' st0']| |]
    eqn:Efunc; [|vm_compute in Efunc; discriminate..].
  assert (Hnodup : NoDup (map symName twoFunctions)).
  { apply NoDup_cons. split; [|apply NoDup_singleton].
    intros Hin. apply list_elem_of_singleton in Hin. discriminate. }
  assert (Hannotated : forall i bound,
             getArgAttrOfTypeTypeAttr basicFunc i typeBoundIdent = Some bound ->
             exists info, argumentTypes basicFunc !! i
                          = Some (NonValueTensorType info)).
  { intros [|[|[|i]]] bound H; vm_compute in H; try discriminate.
    by exists 0. }
  exact (rewritten_call_has_callee_argument_types twoFunctions basicFunc _
           basicCall basicCallOperands _ _ _ _ Hnodup (list_elem_of_here _ _)
           Hannotated eq_refl eq_refl Efunc Ecall).
Defined.

(** X6. When no original result of a call is tuple-typed, every
    replacement value has the type of the result it replaces: the
    synthesized constants are none-typed and the cursor picks, for each
    other result, the new-call result of that very type. *)
Theorem call_replacements_keep_types
    (typeBoundMap : TypeBoundMap) (call : Operation) (operands : list Value)
    (st st' : RewriterState) :
  Forall (fun type => isaTupleType type = false) (opResultTypes call) ->
  matchAndRewriteCall typeBoundMap call operands st = Ok (tt, st') ->
  exists newResults,
    replacements st' !! opId call = Some newResults
    /\ map getType newResults = opResultTypes call.
Proof.
  intros Hplain H.
  apply matchAndRewriteCall_inv in H
    as (convertedResults & newOperands & st1 & newResults & st3
        & Hconv & _ & Hres & ->).
  rewrite convertTypes_spec in Hconv. injection Hconv as <-.
  apply (reconstructResults_types _ _ []) in Hres as (tail & -> & Htail);
    [|done..].
  exists tail. simpl. split; [apply lookup_insert_eq | done].
Qed.

Lemma call_replacements_keep_types_witness :
  match matchAndRewriteCall mixedTypeBounds mixedCall mixedOperands emptyRewriter with
  | Ok (_, st') =>
      exists newResults,
        replacements st' !! 9 = Some newResults
        /\ map getType newResults = [NoneType; intType]
  | _ => False
  end.
Proof.
  destruct (matchAndRewriteCall mixedTypeBounds mixedCall mixedOperands
              emptyRewriter) as [[[] st']| |] eqn:E;
    [|vm_compute in E; discriminate..].
  assert (Hplain : Forall (fun type => isaTupleType type = false)
                          (opResultTypes mixedCall))
    by (repeat constructor).
  exact (call_replacements_keep_types _ _ _ _ _ Hplain E).
Defined.

(** X7. A successful call rewrite only appends to the created
    operations, hands out consecutive fresh identities, and creates
    nothing but copies, the new call to the same callee, constant nones
    and tuple constructions; all of them are legal for any target whose
    set of original operations lies below the rewriter's fresh
    identities. *)
Theorem call_rewrite_creates_legal_operations
    (typeBoundMap : TypeBoundMap) (call : Operation) (operands : list Value)
    (st st' : RewriterState) :
  matchAndRewriteCall typeBoundMap call operands st = Ok (tt, st') ->
  exists extra,
    createdOps st' = createdOps st ++ extra
    /\ map opId extra = seq (nextId st) (length extra)
    /\ Forall (fun op => createdByCallPattern (getCallee call) (opName op) = true)
              extra
    /\ forall original : gset nat,
         (forall id, id ∈ original -> id < nextId st) ->
         Forall (fun op => opLegality original op = Legal) extra.
Proof.
  intros H. apply callPattern_creates in H.
  destruct H as (extra & Hcreated & Hids & Hnext & Hkinds).
  exists extra. split; [done|]. split; [done|]. split; [done|].
  intros original Hbelow.
  destruct (createsOnly_fresh_legal _ st st' original
              (ex_intro _ extra (conj Hcreated (conj Hids (conj Hnext Hkinds))))
              (createdByCallPattern_legal (getCallee call) original) Hbelow)
    as (extra' & Hcreated' & _ & _ & _ & Hlegal).
  rewrite Hcreated in Hcreated'. by apply app_inv_head in Hcreated' as ->.
Qed.

Lemma call_rewrite_creates_legal_operations_witness :
  match matchAndRewriteCall mixedTypeBounds mixedCall mixedOperands emptyRewriter with
  | Ok (_, st') =>
      exists extra,
        createdOps st' = extra
        /\ map opId extra = seq 100 (length extra)
        /\ Forall (fun op => opLegality {[9]} op = Legal) extra
  | _ => False
  end.
Proof.
  destruct (matchAndRewriteCall mixedTypeBounds mixedCall mixedOperands
              emptyRewriter) as [[[] st']| |] eqn:E;
    [|vm_compute in E; discriminate..].
  destruct (call_rewrite_creates_legal_operations _ _ _ _ _ E)
    as (extra & Hcreated & Hids & _ & Hlegal).
  exists extra. split; [exact Hcreated|]. split; [exact Hids|].
  apply Hlegal. intros id Hid. apply elem_of_singleton in Hid. subst id.
  simpl. lia.
Defined.

(** X8. The new call never receives a none-typed operand, and it has as
    many operands as the rewritten call had operands that are not
    none-typed. *)
Theorem new_call_has_no_none_operand
    (typeBoundMap : TypeBoundMap) (call : Operation) (operands : list Value)
    (st st' : RewriterState) :
  matchAndRewriteCall typeBoundMap call operands st = Ok (tt, st') ->
  exists newCall,
    newCall ∈ createdOps st'
    /\ opName newCall = CallOp (getCallee call)
    /\ Forall (fun value => isaNoneType (getType value) = false)
              (opOperands newCall)
    /\ length (opOperands newCall)
         = length (List.filter (fun value => negb (isaNoneType (getType value)))
                               operands).
Proof.
  intros H.
  apply matchAndRewriteCall_inv in H
    as (convertedResults & newOperands & st1 & newResults & st3
        & _ & Hops & Hres & ->).
  apply convertOperands_spec in Hops as (tail & -> & Hadj & _).
  apply reconstructResults_spec in Hres as (_ & _ & _ & _ & ([extra Hext] & _)).
  apply OperandsAdjusted_erases_none in Hadj as [Hnone Hlen].
  exists (mkOperation (nextId st1) (CallOp (getCallee call)) ([] ++ tail)
            convertedResults).
  split; [|split; [done|split; [done|]]].
  - simpl in *. rewrite Hext.
    apply elem_of_app. left. apply elem_of_app. right. apply list_elem_of_here.
  - simpl. rewrite Hlen. unfold enumerate.
    apply (filter_enumerateFrom_length
             (fun value => negb (isaNoneType (getType value)))).
Qed.

Lemma new_call_has_no_none_operand_witness :
  match matchAndRewriteCall mixedTypeBounds mixedCall mixedOperands emptyRewriter with
  | Ok (_, st') =>
      exists newCall,
        newCall ∈ createdOps st'
        /\ opName newCall = CallOp "h"
        /\ length (opOperands newCall) = 2
  | _ => False
  end.
Proof.
  destruct (matchAndRewriteCall mixedTypeBounds mixedCall mixedOperands
              emptyRewriter) as [[[] st']| |] eqn:E;
    [|vm_compute in E; discriminate..].
  destruct (new_call_has_no_none_operand _ _ _ _ _ E)
    as (newCall & Hin & Hname & _ & Hlen).
  exists newCall. split; [exact Hin|]. split; [exact Hname | exact Hlen].
Defined.

(** X9. The call rewrite has exactly two outcomes.  It fails, with the
    unsupported-bound diagnostic, exactly when some operand that is not
    none-typed sits at a position for which the table holds a bound that
    is not a value tensor type; otherwise it succeeds.  The bare failure
    after the result type conversion and a failed assertion on the cursor
    never happen. *)
Theorem call_rewrite_outcome
    (typeBoundMap : TypeBoundMap) (call : Operation) (operands : list Value)
    (st : RewriterState) :
  (callRejected typeBoundMap (getCallee call) operands ->
   matchAndRewriteCall typeBoundMap call operands st
     = Failure (Some unimplementedBound))
  /\ (~ callRejected typeBoundMap (getCallee call) operands ->
      exists st', matchAndRewriteCall typeBoundMap call operands st = Ok (tt, st')).
Proof.
  split.
  - apply matchAndRewriteCall_rejects.
  - apply matchAndRewriteCall_accepts.
Qed.

Lemma call_rewrite_outcome_witness :
  matchAndRewriteCall {[ ("h", 1) := tensor ]} mixedCall mixedOperands
    emptyRewriter = Failure (Some unimplementedBound).
Proof.
  apply (proj1 (call_rewrite_outcome {[ ("h", 1) := tensor ]} mixedCall
                  mixedOperands emptyRewriter)).
  exists 1, (BlockArgument 1 tensor), tensor.
  repeat split; vm_compute; reflexivity.
Defined.

(** X10. When each return operand reaches the return pattern as the value
    group of its original type (nothing for a dropped none, one value of
    a type that is not a tuple, a multi-value group headed by a
    placeholder cast over the tuple), the rewrite succeeds and the new
    return's operand types are exactly the result types the signature
    pattern computes from those original types. *)
Theorem rewritten_return_has_signature_result_types
    (op : Operation) (types : list Ty) (groups : list (list Value))
    (st : RewriterState) :
  Forall2 GroupFor types groups ->
  exists st' newReturn,
    matchAndRewriteReturn op groups st = Ok (tt, st')
    /\ newReturn ∈ createdOps st'
    /\ opName newReturn = ReturnOp
    /\ map getType (opOperands newReturn) = convertResultTypes types [].
Proof.
  intros Hgroups.
  destruct (convertReturnOperands_types types groups Hgroups [] st)
    as (tail & st1 & Hops & Htail).
  unfold matchAndRewriteReturn, Rewrite.bind. rewrite Hops.
  unfold Rewrite.create, Rewrite.replaceOp. simpl.
  eexists _, (mkOperation (nextId st1) ReturnOp tail []).
  split; [reflexivity|]. simpl.
  split; [apply elem_of_app; right; apply list_elem_of_here|].
  split; [done|]. by rewrite convertResultTypes_spec.
Qed.

Lemma rewritten_return_has_signature_result_types_witness :
  exists st' newReturn,
    matchAndRewriteReturn returnOp typedGroups emptyRewriter = Ok (tt, st')
    /\ newReturn ∈ createdOps st'
    /\ opName newReturn = ReturnOp
    /\ map getType (opOperands newReturn)
         = convertResultTypes [NoneType; intType; TupleType [tensor; tensor]] [].
Proof.
  apply rewritten_return_has_signature_result_types.
  constructor; [constructor|].
  constructor; [by constructor|].
  constructor; [|constructor].
  apply (group_tuple _ _ tupleValue); [simpl; lia|].
  exists (castOf 50 tupleValue), (mkOperation 50 UnrealizedConversionCastOp
                                    [tupleValue] [tensor]).
  repeat split.
Defined.

(** X11. A completed return rewrite only appends to the created
    operations, hands out consecutive fresh identities, and creates
    nothing but constant ints, tuple index operations and the new return;
    all of them are legal for any target whose set of original operations
    lies below the rewriter's fresh identities. *)
Theorem return_rewrite_creates_legal_operations
    (op : Operation) (groups : list (list Value)) (st st' : RewriterState) :
  matchAndRewriteReturn op groups st = Ok (tt, st') ->
  exists extra,
    createdOps st' = createdOps st ++ extra
    /\ map opId extra = seq (nextId st) (length extra)
    /\ Forall (fun new => createdByReturnPattern (opName new) = true) extra
    /\ forall original : gset nat,
         (forall id, id ∈ original -> id < nextId st) ->
         Forall (fun new => opLegality original new = Legal) extra.
Proof.
  intros H. apply returnPattern_creates in H.
  destruct H as (extra & Hcreated & Hids & Hnext & Hkinds).
  exists extra. split; [done|]. split; [done|]. split; [done|].
  intros original Hbelow.
  destruct (createsOnly_fresh_legal _ st st' original
              (ex_intro _ extra (conj Hcreated (conj Hids (conj Hnext Hkinds))))
              (createdByReturnPattern_legal original) Hbelow)
    as (extra' & Hcreated' & _ & _ & _ & Hlegal).
  rewrite Hcreated in Hcreated'. by apply app_inv_head in Hcreated' as ->.
Qed.

Lemma return_rewrite_creates_legal_operations_witness :
  match matchAndRewriteReturn returnOp returnGroups emptyRewriter with
  | Ok (_, st') =>
      exists extra,
        createdOps st' = extra
        /\ map opId extra = seq 100 (length extra)
        /\ Forall (fun new => opLegality {[8]} new = Legal) extra
  | _ => False
  end.
Proof.
  destruct (matchAndRewriteReturn returnOp returnGroups emptyRewriter)
    as [[[] st']| |] eqn:E; [|vm_compute in E; discriminate..].
  destruct (return_rewrite_creates_legal_operations _ _ _ _ E)
    as (extra & Hcreated & Hids & _ & Hlegal).
  exists extra. split; [exact Hcreated|]. split; [exact Hids|].
  apply Hlegal. intros id Hid. apply elem_of_singleton in Hid. subst id.
  simpl. lia.
Defined.

(** X12. The return rewrite never reports a match failure.  It completes
    exactly when every placeholder cast that heads a multi-value group
    has an operand; otherwise reading operand 0 of the cast is out of
    range. *)
Theorem return_rewrite_outcome
    (op : Operation) (groups : list (list Value)) (st : RewriterState) :
  (forall diag, matchAndRewriteReturn op groups st <> Failure diag)
  /\ (castsHaveOperand groups
      <-> exists st', matchAndRewriteReturn op groups st = Ok (tt, st'))
  /\ (~ castsHaveOperand groups ->
      matchAndRewriteReturn op groups st = AssertionFailure).
Proof.
  assert (Hfail : forall diag, matchAndRewriteReturn op groups st <> Failure diag).
  { intros diag. unfold matchAndRewriteReturn, Rewrite.bind.
    destruct (convertReturnOperands groups [] st) as [[newOperands st1]|diag'|]
      eqn:Hops; [done| |done].
    by apply convertReturnOperands_no_failure in Hops. }
  assert (Hiff : castsHaveOperand groups
                 <-> exists st', matchAndRewriteReturn op groups st = Ok (tt, st')).
  { split.
    - intros Hcasts.
      destruct (convertReturnOperands_total groups [] st Hcasts)
        as (newOperands & st1 & Hops).
      unfold matchAndRewriteReturn, Rewrite.bind. rewrite Hops.
      by eexists.
    - intros [st' H].
      apply matchAndRewriteReturn_inv in H as (newOperands & st1 & Hops & _).
      by eapply convertReturnOperands_completed. }
  split; [done|]. split; [done|].
  intros Hnot.
  destruct (matchAndRewriteReturn op groups st) as [[[] st']|diag|] eqn:H.
  - exfalso. apply Hnot, Hiff. by exists st'.
  - by destruct (Hfail diag).
  - done.
Qed.

Lemma return_rewrite_outcome_witness :
  matchAndRewriteReturn returnOp brokenGroups emptyRewriter = AssertionFailure.
Proof.
  apply (proj2 (proj2 (return_rewrite_outcome returnOp brokenGroups emptyRewriter))).
  intros Hcasts. unfold castsHaveOperand, brokenGroups in Hcasts.
  apply Forall_cons in Hcasts as [Hhead _].
  destruct (Hhead operandlessCast
              (mkOperation 60 UnrealizedConversionCastOp [] [tensor]))
    as [operand Hoperand]; [simpl; lia | reflexivity..|].
  discriminate.
Defined.

(** X13. Among the operations of a function's body exactly the calls,
    the returns and the indirect calls are illegal for the target the
    driver builds; a call or return whose identity is not that of any
    operation of the body, as the rewriter creates them, is legal. *)
Theorem body_operation_legality (func : FuncOp) :
  (forall op,
      op ∈ body func ->
      opLegality (opsInOriginalProgram func) op = Illegal
      <-> (isCallOp op || isReturnOp op || isCallIndirectOp op) = true)
  /\ (forall new,
        (isCallOp new || isReturnOp new) = true ->
        (forall op, op ∈ body func -> opId op <> opId new) ->
        opLegality (opsInOriginalProgram func) new = Legal).
Proof.
  split.
  - intros op Hin. split.
    + unfold opLegality, isCallOp, isReturnOp, isCallIndirectOp.
      by destruct (opName op).
    + intros Hkind. apply orb_true_iff in Hkind as [Hkind|Hkind].
      * by apply original_call_or_return_illegal.
      * unfold opLegality, isCallIndirectOp in *. by destruct (opName op).
  - intros new Hkind Hfresh.
    assert (Hnotin : opId new ∉ opsInOriginalProgram func).
    { intros Hmem.
      apply elem_of_opsInOriginalProgram in Hmem as (op & Hin & _ & Hid).
      by apply (Hfresh op Hin). }
    unfold opLegality, isCallOp, isReturnOp in *.
    destruct (opName new); try discriminate; by rewrite bool_decide_eq_false_2.
Qed.

Lemma body_operation_legality_witness :
  opLegality (opsInOriginalProgram plainFunc)
    (mkOperation 3 (CallOp "callee") [BlockArgument 0 intType] [intType]) = Legal.
Proof.
  apply (proj2 (body_operation_legality plainFunc)); [reflexivity|].
  intros op Hin Hid. simpl in Hid.
  apply elem_of_cons in Hin as [->|Hin]; [discriminate|].
  apply list_elem_of_singleton in Hin as ->. discriminate.
Defined.

(** X14. The pass neither adds nor removes nor renames functions: after
    a successful run, and equally in the module left behind by a failed
    run, the function names are those of the input module, in order. *)
Theorem pass_keeps_function_names
    (remappedOperands : Operation -> list Value)
    (remappedOperandGroups : Operation -> list (list Value))
    (module : list FuncOp) :
  match runOnOperation remappedOperands remappedOperandGroups module with
  | PassSucceeded module' | PassFailed module' _ =>
      map symName module' = map symName module
  | PassAborted => True
  end.
Proof.
  unfold runOnOperation.
  pose proof (adjustFunctions_names remappedOperands remappedOperandGroups
                (buildTypeBoundMap module) module []) as Hnames.
  by destruct (adjustFunctions _ _ _ _ _).
Qed.

(** X15. The pass succeeds exactly when every function of the module is
    convertible with the collected table: its signature is legal, or is
    accepted by the signature pattern and free of tuples that contain a
    none type; its body has no indirect call, no call with a rejected
    operand, and no return headed by a placeholder cast without
    operand. *)
Theorem pass_succeeds_iff
    (remappedOperands : Operation -> list Value)
    (remappedOperandGroups : Operation -> list (list Value))
    (module : list FuncOp) :
  (exists module',
      runOnOperation remappedOperands remappedOperandGroups module
        = PassSucceeded module')
  <-> Forall (convertible remappedOperands remappedOperandGroups
                (buildTypeBoundMap module))
             module.
Proof.
  unfold runOnOperation. split.
  - intros [module' Hrun].
    apply adjustFunctions_succeeded in Hrun as (rewritten & _ & Hall).
    apply Forall_forall. intros func Hin.
    destruct (Forall2_elem_l _ _ _ _ Hall Hin) as (func' & _ & Hadj).
    apply adjustCallingConventions_succeeds_iff. by exists func'.
  - intros Hall. by apply adjustFunctions_succeeds.
Qed.

Lemma pass_succeeds_iff_witness :
  exists module',
    runOnOperation operandsAsTheyAre operandsAsSingletons [plainFunc]
      = PassSucceeded module'.
Proof.
  apply pass_succeeds_iff. constructor; [|constructor].
  split; [left; vm_compute; reflexivity|].
  constructor; [|constructor; [|constructor]].
  - intros (i & value & bound & _ & _ & Hbound & _).
    change (buildTypeBoundMap [plainFunc]) with (∅ : TypeBoundMap) in Hbound.
    by rewrite lookup_empty in Hbound.
  - constructor; [|constructor].
    intros first definingOp Hmany. simpl in Hmany. lia.
Defined.

(** X16. When the tuple is the only original result of a call that is
    not none-typed, the reconstruction is the cursor walk: each none-typed
    result is replaced by a constant none and the tuple construction
    consumes exactly the results of the new call, one per contained
    type. *)
Theorem tuple_among_nones_reconstruction
    (typeBoundMap : TypeBoundMap) (call : Operation) (operands : list Value)
    (st st' : RewriterState) (before after containedTypes : list Ty) :
  Forall (fun type => isaNoneType type = true) before ->
  Forall (fun type => isaNoneType type = true) after ->
  opResultTypes call = before ++ TupleType containedTypes :: after ->
  matchAndRewriteCall typeBoundMap call operands st = Ok (tt, st') ->
  map resultSource <$> (replacements st' !! opId call)
    = Some (specResultSources (opResultTypes call) 0).
Proof.
  intros Hbefore Hafter Htypes H.
  apply matchAndRewriteCall_inv in H
    as (convertedResults & newOperands & st1 & newResults & st3
        & Hconv & _ & Hres & ->).
  rewrite convertTypes_spec in Hconv. injection Hconv as <-.
  rewrite Htypes in *. simpl. rewrite lookup_insert_eq. simpl. f_equal.
  rewrite map_app, concat_app, (convertTypes_nones before Hbefore) in Hres.
  simpl in Hres. rewrite (convertTypes_nones after Hafter), app_nil_r in Hres.
  apply reconstructResults_nones in Hres as (nones1 & st4 & Hsrc1 & Hres);
    [|done].
  simpl in Hres. unfold Rewrite.bind, Rewrite.create in Hres. simpl in Hres.
  rewrite <- (app_nil_r after) in Hres.
  apply reconstructResults_nones in Hres as (nones2 & st5 & Hsrc2 & Hres);
    [|done].
  simpl in Hres. injection Hres as <- _.
  pose proof (resultSource_getResults
                (mkOperation (nextId st1) (CallOp (getCallee call)) newOperands
                   containedTypes)
                (getCallee call) eq_refl) as Hsrc.
  rewrite !map_app, Hsrc1, Hsrc2. simpl. rewrite Hsrc. simpl.
  rewrite (specResultSources_nones before _ 0 Hbefore). simpl.
  rewrite <- app_assoc. simpl. f_equal. f_equal. clear -Hafter.
  generalize (length containedTypes).
  induction Hafter as [|type after Hnone _ IH]; intros cursor; simpl; [done|].
  destruct type; try discriminate. by rewrite (IH cursor).
Qed.

Lemma tuple_among_nones_reconstruction_witness :
  match matchAndRewriteCall ∅ noneAndTupleCall [] emptyRewriter with
  | Ok (_, st') =>
      map resultSource <$> (replacements st' !! 4)
        = Some [FromConstantNone;
                FromTupleConstruct [FromNewCall 0; FromNewCall 1]]
  | _ => False
  end.
Proof.
  destruct (matchAndRewriteCall ∅ noneAndTupleCall [] emptyRewriter)
    as [[[] st']| |] eqn:E; [|vm_compute in E; discriminate..].
  assert (Hbefore : Forall (fun type => isaNoneType type = true) [NoneType])
    by (repeat constructor).
  exact (tuple_among_nones_reconstruction ∅ noneAndTupleCall [] emptyRewriter st'
           [NoneType] [] [tensor; tensor] Hbefore (Forall_nil_2 _) eq_refl E).
Defined.

(** X17. A failed run stops at the first function whose conversion
    fails: the functions before it are left converted, that function and
    the ones after it are left as they were, and the reported diagnostic
    is that of the failed conversion. *)
Theorem failed_pass_keeps_earlier_conversions
    (remappedOperands : Operation -> list Value)
    (remappedOperandGroups : Operation -> list (list Value))
    (module module' : list FuncOp) (diag : option string) :
  runOnOperation remappedOperands remappedOperandGroups module
    = PassFailed module' diag ->
  exists before func after rewritten,
    module = before ++ func :: after
    /\ module' = rewritten ++ func :: after
    /\ Forall2 (fun old new =>
                  adjustCallingConventions remappedOperands
                    remappedOperandGroups old (buildTypeBoundMap module) = Ok new)
               before rewritten
    /\ adjustCallingConventions remappedOperands remappedOperandGroups func
         (buildTypeBoundMap module) = Failure diag.
Proof.
  unfold runOnOperation. intros H.
  apply adjustFunctions_failed in H
    as (before & func & after & rewritten & Hmodule & -> & Hall & Hfail).
  by exists before, func, after, rewritten.
Qed.

Lemma failed_pass_keeps_earlier_conversions_witness :
  match runOnOperation operandsAsTheyAre operandsAsSingletons
          [plainFunc; rejectedFunc] with
  | PassFailed module' diag =>
      exists before func after rewritten,
        [plainFunc; rejectedFunc] = before ++ func :: after
        /\ module' = rewritten ++ func :: after
        /\ Forall2 (fun old new =>
                      adjustCallingConventions operandsAsTheyAre
                        operandsAsSingletons old
                        (buildTypeBoundMap [plainFunc; rejectedFunc]) = Ok new)
                   before rewritten
        /\ adjustCallingConventions operandsAsTheyAre operandsAsSingletons func
             (buildTypeBoundMap [plainFunc; rejectedFunc]) = Failure diag
  | _ => False
  end.
Proof.
  destruct (runOnOperation operandsAsTheyAre operandsAsSingletons
              [plainFunc; rejectedFunc]) as [module'|module' diag|] eqn:E.
  - vm_compute in E. discriminate.
  - exact (failed_pass_keeps_earlier_conversions _ _ _ _ _ E).
  - vm_compute in E. discriminate.
Defined.
